(** * Credential validation and the credential setup screen

    A shallow embedding of

    - [core/framework/credentials/validation.py]
      ([ensure_credential_key_env], [validate_agent_credentials]) and
    - [core/framework/tui/screens/credential_setup.py]
      ([CredentialSetupScreen]),

    together with the properties of these two files that the
    specification of the credential subsystem states. *)

From Stdlib Require Import NArith String Ascii.
From stdpp Require Import base option list sorting gmap.

Local Open Scope N_scope.

(** ** Python values *)

Module Py.

(** A Python [str] is a sequence of Unicode code points.  Comparison of
    two [str] values, and therefore [sorted], works on code points. *)
Definition codepoint := N.
Definition str := list codepoint.

(** The code points of an ASCII literal. *)
Definition u (s : string) : str := N_of_ascii <$> list_ascii_of_string s.

(** ["\n"] *)
Definition NL : str := [10].

(** Truth value of a [str], and of an [Optional[str]]. *)
Definition truthy (s : str) : bool :=
  match s with [] => false | _ :: _ => true end.

Definition truthy_opt (o : option str) : bool :=
  match o with None => false | Some s => truthy s end.

(** [a <= b] on [str]: lexicographic on code points. *)
Fixpoint leb (a b : str) : bool :=
  match a, b with
  | [], _ => true
  | _ :: _, [] => false
  | x :: a', y :: b' =>
      match x ?= y with
      | Lt => true
      | Gt => false
      | Eq => leb a' b'
      end
  end.

Definition le (a b : str) : Prop := leb a b = true.

#[global] Instance le_dec a b : Decision (le a b).
Proof. unfold le. apply _. Defined.

(** [sorted(xs)] for an iterable of [str].  The order is total and
    antisymmetric, so the sorted list is unique (lemma [sorted_unique]
    below) and any sorting algorithm computes the same list as the
    interpreter's. *)
Definition sorted (xs : list str) : list str := merge_sort le xs.

(** [sep.join(xs)] *)
Fixpoint join (sep : str) (xs : list str) : str :=
  match xs with
  | [] => []
  | x :: rest =>
      match rest with
      | [] => x
      | _ :: _ => x ++ sep ++ join sep rest
      end
  end.

(** [str.isspace] for one code point: the interpreter's table of
    whitespace characters. *)
Definition isspace (c : codepoint) : bool :=
  ((9 <=? c) && (c <=? 13)) || ((28 <=? c) && (c <=? 32))
  || (c =? 133) || (c =? 160) || (c =? 5760)
  || ((8192 <=? c) && (c <=? 8202))
  || (c =? 8232) || (c =? 8233) || (c =? 8239) || (c =? 8287)
  || (c =? 12288).

Fixpoint lstrip (s : str) : str :=
  match s with
  | [] => []
  | c :: s' => if isspace c then lstrip s' else s
  end.

Definition rstrip (s : str) : str := reverse (lstrip (reverse s)).

(** [s.strip()] *)
Definition strip (s : str) : str := rstrip (lstrip s).

(** A Python [set] of [str].  The interpreter iterates a set in an
    order that depends on hashing; every definition that iterates a
    set takes that order as a [set_iteration]. *)
Record set_iteration := {
  iterate :> gset str → list str;
  iterate_elements : ∀ s, iterate s ≡ₚ elements s
}.

Definition in_hash_order : set_iteration :=
  {| iterate := elements; iterate_elements := λ s, reflexivity _ |}.

Definition in_reverse_hash_order : set_iteration :=
  {| iterate := λ s, reverse (elements s);
     iterate_elements := λ s, reverse_Permutation (elements s) |}.

End Py.

Import Py.

(** ** [credentials/validation.py] *)

Module NodeSpec.
(** What the validation reads of a graph node: [node.tools] (a list of
    tool names, possibly [None] or empty) and [node.node_type]. *)
Record t := { tools : option (list str); node_type : str }.
End NodeSpec.

Module CredentialSpec.
(** What the validation reads of a credential spec handed out by the
    store adapter. *)
Record t := {
  env_var : str;
  tools : list str;
  node_types : list str;
  help_url : option str
}.

#[global] Instance eq_dec : EqDecision t.
Proof. solve_decision. Defined.
End CredentialSpec.

Module Validation.

(** [aden_tools.credentials.store_adapter.CredentialStoreAdapter]: the
    two queries the validation makes.  Each returns
    [(cred_name, spec)] pairs. *)
Record CredentialStoreAdapter := {
  get_missing_for_tools : list str → list (str * CredentialSpec.t);
  get_missing_for_node_types : list str → list (str * CredentialSpec.t)
}.

(** The optional package [aden_tools].  A field is [None] when the
    corresponding [import] raises [ImportError].
    - [shell_config]: [check_env_var_in_shell_config], returning
      [(found, value)];
    - [store_adapter]: [CredentialStoreAdapter.default], which builds
      the adapter from the process environment at the time of the
      call. *)
Record aden_tools := {
  shell_config : option (str → bool * option str);
  store_adapter : option (gmap str str → CredentialStoreAdapter)
}.

(** The process: [os.environ], and the record of the calls made to
    [check_env_var_in_shell_config] so far. *)
Record process := {
  environ : gmap str str;
  shell_lookups : list str
}.

Definition HIVE_CREDENTIAL_KEY : str := u "HIVE_CREDENTIAL_KEY".
Definition ADEN_API_KEY : str := u "ADEN_API_KEY".

(** One iteration of the loop of [ensure_credential_key_env], for a
    value that [os.environ] takes; [OsEnviron] below has the iteration
    with the [ValueError] of a value it refuses.  The [logger.debug]
    line leaves no trace in the process and is left out. *)
Definition ensure_var (check : str → bool * option str)
    (p : process) (var_name : str) : process :=
  if truthy_opt (environ p !! var_name) then p
  else
    let '(found, value) := check var_name in
    let p := {| environ := environ p;
                shell_lookups := shell_lookups p ++ [var_name] |} in
    match value with
    | Some v =>
        if found && truthy v
        then {| environ := <[var_name := v]> (environ p);
                shell_lookups := shell_lookups p |}
        else p
    | None => p
    end.

Definition ensure_credential_key_env (m : aden_tools) (p : process) : process :=
  match shell_config m with
  | None => p
  | Some check => foldl (ensure_var check) p [HIVE_CREDENTIAL_KEY; ADEN_API_KEY]
  end.

(** [framework.credentials.models.CredentialError(message)] *)
Inductive CredentialError := MkCredentialError (message : str).

Definition message (e : CredentialError) : str :=
  match e with MkCredentialError m => m end.

Inductive outcome :=
| Returned
| Raised (e : CredentialError).

(** The two sets built at the start of [validate_agent_credentials]. *)
Definition required_tools (nodes : list NodeSpec.t) : gset str :=
  foldl (λ acc node,
           match NodeSpec.tools node with
           | Some (t :: ts) => acc ∪ list_to_set (t :: ts)
           | _ => acc
           end) ∅ nodes.

Definition node_types (nodes : list NodeSpec.t) : gset str :=
  list_to_set (NodeSpec.node_type <$> nodes).

(** [sorted(t for t in names if t in of_spec)] *)
Definition affected (names : list str) (of_spec : list str) : list str :=
  sorted (filter (λ t, t ∈ of_spec) names).

Definition help_line (spec : CredentialSpec.t) : str :=
  match CredentialSpec.help_url spec with
  | Some url => if truthy url then NL ++ u "    Get it at: " ++ url else []
  | None => []
  end.

(** The entry appended for a spec by the first loop... *)
Definition tool_entry (names : list str) (spec : CredentialSpec.t) : str :=
  (u "  " ++ CredentialSpec.env_var spec ++ u " for "
     ++ join (u ", ") (affected names (CredentialSpec.tools spec)))
  ++ help_line spec.

(** ...and by the second. *)
Definition node_type_entry (names : list str) (spec : CredentialSpec.t) : str :=
  (u "  " ++ CredentialSpec.env_var spec ++ u " for "
     ++ join (u ", ") (affected names (CredentialSpec.node_types spec))
     ++ u " nodes")
  ++ help_line spec.

Definition header : str := u "Missing required credentials:" ++ NL.

Definition fix_hint : str :=
  NL ++ u "To fix: run /hive-credentials in Claude Code."
  ++ NL ++ u "If you've already set up credentials, restart your terminal to load them.".

(** The list [missing] when both loops are done. *)
Definition missing_entries (adapter : CredentialStoreAdapter)
    (tool_names type_names : list str) : list str :=
  ((λ r, tool_entry tool_names r.2)
     <$> get_missing_for_tools adapter (sorted tool_names))
  ++ ((λ r, node_type_entry type_names r.2)
        <$> get_missing_for_node_types adapter (sorted type_names)).

(** [it_tools] and [it_types] are the orders in which the interpreter
    iterates [required_tools] and [node_types]. *)
Definition validate_agent_credentials (it_tools it_types : set_iteration)
    (m : aden_tools) (nodes : list NodeSpec.t) (p : process) : outcome * process :=
  let required_tools := it_tools (required_tools nodes) in
  let node_types := it_types (node_types nodes) in
  match store_adapter m with
  | None => (Returned, p)
  | Some default =>
      let p := ensure_credential_key_env m p in
      let adapter := default (environ p) in
      let missing := missing_entries adapter required_tools node_types in
      match missing with
      | [] => (Returned, p)
      | _ :: _ =>
          (Raised (MkCredentialError (join NL ([header] ++ missing ++ [fix_hint]))), p)
      end
  end.

(** *** Reading the outcome *)

(** [piece] occurs in [text]. *)
Definition occurs_in (piece text : str) : Prop :=
  ∃ before after, text = before ++ piece ++ after.

(** The resolution of one variable by [ensure_credential_key_env]
    when the shell-config lookup [check] is installed. *)
Definition resolved (check : str → bool * option str)
    (env : gmap str str) (var_name : str) : option str :=
  if truthy_opt (env !! var_name) then env !! var_name
  else match check var_name with
       | (true, Some v) => if truthy v then Some v else env !! var_name
       | _ => env !! var_name
       end.




End Validation.

(** ** [tui/screens/credential_setup.py] *)

Module MissingCredential.
(** [framework.credentials.setup.MissingCredential], as far as the
    screen reads it. *)
Record t := {
  env_var : str;
  tools : list str;
  node_types : list str;
  description : option str;
  help_url : option str
}.

#[global] Instance eq_dec : EqDecision t.
Proof. solve_decision. Defined.
End MissingCredential.

Module Screen.

(** An exception raised by the session, by its [str(e)]. *)
Definition exn := str.

(** [framework.credentials.setup.CredentialSetupSession]: the two
    methods the screen calls, acting on the session's state [S].
    The second component of a result is [Some e] when the call raised
    the [Exception] [e]. *)
Record CredentialSetupSession (S : Type) := {
  _ensure_credential_key : S → S * option exn;
  _store_credential : MissingCredential.t → str → S → S * option exn
}.
Arguments _ensure_credential_key {S}.
Arguments _store_credential {S}.

Inductive severity := information | warning | error.

(** What the screen does, in the order it does it.  [StoreCredential]
    records the index of the entry and whether the call raised. *)
Inductive event :=
| EnsureKey
| ReadInput (i : nat)
| StoreCredential (i : nat) (cred : MissingCredential.t) (value : str)
    (raised : option exn)
| Notify (message : str) (sev : severity) (timeout : option N)
| Dismiss (result : option bool).

#[global] Instance severity_eq_dec : EqDecision severity.
Proof. solve_decision. Defined.
#[global] Instance event_eq_dec : EqDecision event.
Proof. solve_decision. Defined.

(** The screen: the session, [self._missing], the current value of
    the [Input] widget [key-i] for each [i], and the events so far. *)
Record screen (S : Type) := {
  _session : S;
  _missing : list MissingCredential.t;
  inputs : nat → str;
  trace : list event
}.
Arguments _session {S}.
Arguments _missing {S}.
Arguments inputs {S}.
Arguments trace {S}.

Section methods.
Context {S : Type} (session : CredentialSetupSession S).

(** Computations of the screen: state passing, with the exceptions
    that leave the method. *)
Definition M (A : Type) : Type := screen S → (exn + A) * screen S.

Definition ret {A} (a : A) : M A := λ sc, (inr a, sc).

Definition bind {A B} (k : A → M B) (c : M A) : M B :=
  λ sc, match c sc with
        | (inl e, sc') => (inl e, sc')
        | (inr a, sc') => k a sc'
        end.

#[local] Instance M_ret : MRet M := @ret.
#[local] Instance M_bind : MBind M := @bind.

Definition emit (s : S) (e : event) (sc : screen S) : screen S :=
  {| _session := s; _missing := _missing sc; inputs := inputs sc;
     trace := trace sc ++ [e] |}.

(** [self._session._ensure_credential_key()] *)
Definition ensure_credential_key : M unit :=
  λ sc, let '(s, r) := _ensure_credential_key session (_session sc) in
        (match r with Some e => inl e | None => inr () end,
         emit s EnsureKey sc).

(** [self.query_one(f"#key-{i}", Input).value] *)
Definition input_value (i : nat) : M str :=
  λ sc, (inr (inputs sc i), emit (_session sc) (ReadInput i) sc).

(** [try: self._session._store_credential(cred, value)
     except Exception as e: ...], returning the caught exception. *)
Definition try_store_credential (i : nat) (cred : MissingCredential.t)
    (value : str) : M (option exn) :=
  λ sc, let '(s, r) := _store_credential session cred value (_session sc) in
        (inr r, emit s (StoreCredential i cred value r) sc).

Definition notify (message : str) (sev : severity) (timeout : option N) : M unit :=
  λ sc, (inr (), emit (_session sc) (Notify message sev timeout) sc).

Definition dismiss (result : option bool) : M unit :=
  λ sc, (inr (), emit (_session sc) (Dismiss result) sc).

Definition missing : M (list MissingCredential.t) :=
  λ sc, (inr (_missing sc), sc).

(** [for i, x in enumerate(xs, i0): acc = body(acc, i, x)] *)
Fixpoint for_enumerate {A B} (body : B → nat → A → M B)
    (i0 : nat) (xs : list A) (acc : B) : M B :=
  match xs with
  | [] => ret acc
  | x :: xs' => acc' ← body acc i0 x; for_enumerate body (Datatypes.S i0) xs' acc'
  end.

(** The body of the loop of [_save_credentials]. *)
Definition save_entry (configured : nat) (i : nat)
    (cred : MissingCredential.t) : M nat :=
  raw ← input_value i;
  let value := strip raw in
  if truthy value then
    r ← try_store_credential i cred value;
    match r with
    | None => ret (configured + 1)%nat
    | Some e =>
        notify (u "Error storing " ++ MissingCredential.env_var cred
                  ++ u ": " ++ e) error None;;
        ret configured
    end
  else ret configured.

Definition _save_credentials : M unit :=
  ensure_credential_key;;
  creds ← missing;
  configured ← for_enumerate save_entry 0%nat creds 0%nat;
  if (0 <? configured)%nat then dismiss (Some true)
  else notify (u "No credentials entered") warning (Some 3).

(** [on_button_pressed], by the id of the pressed button. *)
Definition on_button_pressed (button_id : str) : M unit :=
  if decide (button_id = u "btn-save") then _save_credentials
  else if decide (button_id = u "btn-skip") then dismiss None
  else ret ().

(** Bound to the escape key. *)
Definition action_dismiss_setup : M unit := dismiss None.

End methods.

(** A screen as [__init__] leaves it. *)
Definition init {S} (s : S) (creds : list MissingCredential.t)
    (values : nat → str) : screen S :=
  {| _session := s; _missing := creds; inputs := values; trace := [] |}.

(** *** Reading a trace *)

Definition is_store (e : event) : bool :=
  match e with StoreCredential _ _ _ _ => true | _ => false end.

Definition is_stored (e : event) : bool :=
  match e with StoreCredential _ _ _ None => true | _ => false end.

Definition is_failed (e : event) : bool :=
  match e with StoreCredential _ _ _ (Some _) => true | _ => false end.

(** The calls of [_store_credential]. *)
Definition store_writes (tr : list event) : list event := filter is_store tr.

Definition configured_count (tr : list event) : nat := length (filter is_stored tr).
Definition failed_count (tr : list event) : nat := length (filter is_failed tr).

(** What the operator and the caller of the screen get to see: the
    notifications and the result the screen is dismissed with. *)
Definition is_report (e : event) : bool :=
  match e with Notify _ _ _ | Dismiss _ => true | _ => false end.

Definition reports (tr : list event) : list event := filter is_report tr.

(** The states of the specification's Setup Session, read off the
    screen: dismissed with [True] is [Saved], dismissed with [None] is
    [Cancelled], not dismissed is still [Collecting]. *)
Inductive phase := Collecting | Saved | Cancelled.

Definition phase_after (ph : phase) (e : event) : phase :=
  match e with
  | Dismiss (Some true) => Saved
  | Dismiss _ => Cancelled
  | _ => ph
  end.

Definition phase_of (tr : list event) : phase := foldl phase_after Collecting tr.

(** *** The loop, entry by entry *)

(** The notification of a failed store. *)
Definition error_report (cred : MissingCredential.t) (e : exn) : event :=
  Notify (u "Error storing " ++ MissingCredential.env_var cred ++ u ": " ++ e)
    error None.

(** The events of the loop of [_save_credentials] over [creds], whose
    first entry has index [i0], from the session state [s]; and the
    session state it ends in. *)
Fixpoint entries_events {S} (session : CredentialSetupSession S)
    (values : nat → str) (i0 : nat) (creds : list MissingCredential.t)
    (s : S) : list event * S :=
  match creds with
  | [] => ([], s)
  | cred :: rest =>
      let value := strip (values i0) in
      if truthy value then
        let '(s', r) := _store_credential session cred value s in
        let '(evs, s'') := entries_events session values (Datatypes.S i0) rest s' in
        (ReadInput i0 :: StoreCredential i0 cred value r
           :: match r with Some e => [error_report cred e] | None => [] end
           ++ evs,
         s'')
      else
        let '(evs, s') := entries_events session values (Datatypes.S i0) rest s in
        (ReadInput i0 :: evs, s')
  end.

(** The event a save ends with, by the number of entries stored. *)
Definition closing (configured : nat) : event :=
  if (0 <? configured)%nat then Dismiss (Some true)
  else Notify (u "No credentials entered") warning (Some 3).

(** The entry a store event belongs to. *)
Definition store_index (e : event) : option nat :=
  match e with StoreCredential i _ _ _ => Some i | _ => None end.

(** The report of a failed store event. *)
Definition report_of (e : event) : event :=
  match e with
  | StoreCredential _ cred _ (Some x) => error_report cred x
  | _ => e
  end.

(** The specification's wording of the end of a save: a summary that
    gives the count configured and the count failed, whatever was
    submitted. *)
Definition summary_is_reported {S} (session : CredentialSetupSession S)
    (s : S) (creds : list MissingCredential.t) : Prop :=
  ∃ summary : list event → nat * nat,
    ∀ values,
      let tr := trace (_save_credentials session (init s creds values)).2 in
      summary (reports tr) = (configured_count tr, failed_count tr).

(** The specification's wording of a submission with every input
    blank: no store write, and the session is [Cancelled]. *)
Definition blank_submission_cancels {S} (session : CredentialSetupSession S)
    (s : S) (creds : list MissingCredential.t) (values : nat → str) : Prop :=
  (∀ i, strip (values i) = []) →
  let tr := trace (_save_credentials session (init s creds values)).2 in
  store_writes tr = [] ∧ phase_of tr = Cancelled.

End Screen.

(** ** Collaborators that are not part of the two files *)

Module Resolver.
Import Validation.

(** Modelled from the spec: the store adapter of [aden_tools], which
    is not among the sources, after the specification's Requirement
    Resolver: a spec of the registry is reported for the tools when
    its [tools] intersect the workload's and the store holds nothing
    under its [env_var], and likewise for the node types. *)
Definition intersects (xs ys : list str) : bool :=
  existsb (λ x, bool_decide (x ∈ ys)) xs.

Definition absent (store : gset str) (spec : CredentialSpec.t) : bool :=
  bool_decide (CredentialSpec.env_var spec ∉ store).

Definition adapter (registry : list (str * CredentialSpec.t))
    (store : gset str) : CredentialStoreAdapter :=
  {| get_missing_for_tools names :=
       filter (λ r, intersects (CredentialSpec.tools r.2) names
                    && absent store r.2 = true) registry;
     get_missing_for_node_types names :=
       filter (λ r, intersects (CredentialSpec.node_types r.2) names
                    && absent store r.2 = true) registry |}.

(** [aden_tools] with the adapter installed and no shell-config
    lookup. *)
Definition installed (registry : list (str * CredentialSpec.t))
    (store : gset str) : aden_tools :=
  {| shell_config := None;
     store_adapter := Some (λ _, adapter registry store) |}.
End Resolver.

Module Session.
Import Screen.

(** Modelled from the spec: the [CredentialSetupSession] of
    [framework.credentials.setup], which is not among the sources,
    after the specification's Setup Session: ensuring the master key
    generates one when there is none, and an accepted value is put
    into the store under the entry's [env_var].  A put into one of
    the [read_only] identities fails. *)
Record state := {
  master_key : option str;
  store : gmap str str
}.

Definition ensure (s : state) : state * option exn :=
  match master_key s with
  | Some _ => (s, None)
  | None => ({| master_key := Some (u "generated-key"); store := store s |}, None)
  end.

Definition put (read_only : list str) (cred : MissingCredential.t)
    (value : str) (s : state) : state * option exn :=
  if decide (MissingCredential.env_var cred ∈ read_only)
  then (s, Some (u "store is read-only"))
  else ({| master_key := master_key s;
           store := <[MissingCredential.env_var cred := value]> (store s) |},
        None).

Definition session (read_only : list str) : CredentialSetupSession state :=
  {| _ensure_credential_key := ensure;
     _store_credential := put read_only |}.

Definition fresh : state := {| master_key := None; store := ∅ |}.
End Session.

(** ** A workload to run the definitions on *)

Module Example.
Import Validation.

(** A credential required by the tool [search] only... *)
Definition search_key : CredentialSpec.t :=
  {| CredentialSpec.env_var := u "FOO_KEY";
     CredentialSpec.tools := [u "search"; u "crawl"];
     CredentialSpec.node_types := [];
     CredentialSpec.help_url := None |}.

(** ...and one required by a tool and by a node type. *)
Definition llm_key : CredentialSpec.t :=
  {| CredentialSpec.env_var := u "ANTHROPIC_API_KEY";
     CredentialSpec.tools := [u "summarize"];
     CredentialSpec.node_types := [u "llm_generate"; u "llm_tool_use"];
     CredentialSpec.help_url := Some (u "https://console.anthropic.com/settings/keys") |}.

Definition registry : list (str * CredentialSpec.t) :=
  [(u "foo", search_key); (u "anthropic", llm_key)].

Definition researcher : NodeSpec.t :=
  {| NodeSpec.tools := Some [u "summarize"; u "search"];
     NodeSpec.node_type := u "llm_tool_use" |}.

Definition router : NodeSpec.t :=
  {| NodeSpec.tools := None; NodeSpec.node_type := u "router" |}.

Definition writer : NodeSpec.t :=
  {| NodeSpec.tools := Some []; NodeSpec.node_type := u "llm_generate" |}.

Definition nodes : list NodeSpec.t := [researcher; router; writer].

Definition idle : process := {| environ := ∅; shell_lookups := [] |}.

(** A store that holds both credentials. *)
Definition full_store : gset str := {[ u "FOO_KEY"; u "ANTHROPIC_API_KEY" ]}.

(** A lookup that finds every variable in the shell configuration,
    and a process whose [HIVE_CREDENTIAL_KEY] is set to the empty
    string. *)
Definition found_in_shell : aden_tools :=
  {| shell_config := Some (λ _, (true, Some (u "key-from-shell")));
     store_adapter := None |}.

Definition empty_key_process : process :=
  {| environ := {[ HIVE_CREDENTIAL_KEY := [] ]}; shell_lookups := [] |}.

(** The two entries of a setup screen, and what the operator typed. *)
Definition foo_entry : MissingCredential.t :=
  {| MissingCredential.env_var := u "FOO_KEY";
     MissingCredential.tools := [u "search"];
     MissingCredential.node_types := [];
     MissingCredential.description := None;
     MissingCredential.help_url := None |}.

Definition llm_entry : MissingCredential.t :=
  {| MissingCredential.env_var := u "ANTHROPIC_API_KEY";
     MissingCredential.tools := [];
     MissingCredential.node_types := [u "llm_generate"];
     MissingCredential.description := Some (u "Anthropic API key");
     MissingCredential.help_url := Some (u "https://console.anthropic.com/settings/keys") |}.

Definition entries : list MissingCredential.t := [foo_entry; llm_entry].

(** The values of the inputs [key-0], [key-1], ...; an input that
    does not exist reads as empty. *)
Definition typed (values : list str) : nat → str := λ i, nth i values [].

Definition all_blank : nat → str := typed [u "   "; [9; 32; 160]].
Definition first_only : nat → str := typed [u " sk-foo "; u " "].
Definition both : nat → str := typed [u "sk-foo"; u "sk-ant"].
End Example.

(** ** [CredentialSetupScreen.compose] *)

From Stdlib Require Import DecimalString DecimalNat.

Module Compose.
Import Screen.

(** The widgets the screen is built from, with the arguments [compose]
    gives them. *)
#[local] Unset Elimination Schemes.
Inductive widget :=
| Vertical (id classes : option str) (children : list widget)
| VerticalScroll (id : option str) (children : list widget)
| Label (text : str) (id : option str)
| Input (placeholder : str) (password : bool) (id : option str)
| Button (label : str) (variant : str) (id : option str).
#[local] Set Elimination Schemes.

(** [str(i)] for a natural number: its decimal digits. *)
Definition str_of_nat (i : nat) : str :=
  u (NilEmpty.string_of_uint (Nat.to_uint i)).

(** [f"key-{i}"] *)
Definition key_id (i : nat) : str := u "key-" ++ str_of_nat i.

(** The body of the loop of [compose] for the entry [i]. *)
Definition entry_widget (i : nat) (cred : MissingCredential.t) : widget :=
  Vertical None (Some (u "cred-entry"))
    ([Label (u "[bold]" ++ MissingCredential.env_var cred ++ u "[/bold]") None]
     ++ (let affected :=
           match MissingCredential.tools cred with
           | [] => MissingCredential.node_types cred
           | _ :: _ => MissingCredential.tools cred
           end in
         match affected with
         | [] => []
         | _ :: _ =>
             [Label (u "[dim]Required by: " ++ join (u ", ") affected ++ u "[/dim]")
                None]
         end)
     ++ (if truthy_opt (MissingCredential.description cred)
         then [Label (u "[dim]"
                        ++ default [] (MissingCredential.description cred)
                        ++ u "[/dim]") None]
         else [])
     ++ (if truthy_opt (MissingCredential.help_url cred)
         then [Label (u "[cyan]Get key:[/cyan] "
                        ++ default [] (MissingCredential.help_url cred)) None]
         else [])
     ++ [Input (u "Paste API key...") true (Some (key_id i))]).

(** What [compose] yields: the container with everything in it. *)
Definition compose {S} (sc : screen S) : list widget :=
  let n := length (_missing sc) in
  [Vertical (Some (u "cred-container")) None
     [Label (u "Credential Setup") (Some (u "cred-title"));
      Label (u "[dim]" ++ str_of_nat n ++ u " credential"
               ++ (if decide (n ≠ 1%nat) then u "s" else [])
               ++ u " needed to run this agent[/dim]")
        (Some (u "cred-subtitle"));
      VerticalScroll (Some (u "cred-scroll")) (imap entry_widget (_missing sc));
      Vertical None (Some (u "cred-buttons"))
        [Button (u "Save & Continue") (u "primary") (Some (u "btn-save"));
         Button (u "Skip") (u "default") (Some (u "btn-skip"))];
      Label (u "[dim]Enter[/dim] Submit  [dim]Esc[/dim] Cancel")
        (Some (u "cred-footer"))]].

(** *** The widgets that are yielded *)

(** A widget and everything below it, in document order. *)
Fixpoint descendants (w : widget) : list widget :=
  w :: match w with
       | Vertical _ _ children | VerticalScroll _ children =>
           flat_map descendants children
       | _ => []
       end.

Definition widget_id (w : widget) : option str :=
  match w with
  | Vertical id _ _ | VerticalScroll id _ | Label _ id | Input _ _ id
  | Button _ _ id => id
  end.

Definition is_input (w : widget) : bool :=
  match w with Input _ _ _ => true | _ => false end.

Definition is_button (w : widget) : bool :=
  match w with Button _ _ _ => true | _ => false end.

(** The widgets with the id [id] among those that [compose] is given
    as yielding, in document order. *)
Definition with_id (id : str) (ws : list widget) : list widget :=
  filter (λ w, bool_decide (widget_id w = Some id)) (flat_map descendants ws).

(** The ids of the widgets of one kind, in document order. *)
Definition ids_of (kind : widget → bool) (ws : list widget) : list (option str) :=
  widget_id <$> filter kind (flat_map descendants ws).

End Compose.

(** ** More ways to read a trace *)

Module Reading.
Import Screen.

(** The input a read event reads. *)
Definition read_index (e : event) : option nat :=
  match e with ReadInput i => Some i | _ => None end.

Definition is_dismiss (e : event) : bool :=
  match e with Dismiss _ => true | _ => false end.

(** The entry and the value of a store event. *)
Definition store_call (e : event) : option (MissingCredential.t * str) :=
  match e with StoreCredential _ cred value _ => Some (cred, value) | _ => None end.

(** The entries whose input is not blank, each with its stripped input,
    in the order of the entries; [i0] is the index of the first. *)
Fixpoint submitted (values : nat → str) (i0 : nat)
    (creds : list MissingCredential.t) : list (MissingCredential.t * str) :=
  match creds with
  | [] => []
  | cred :: rest =>
      (if truthy (strip (values i0)) then [(cred, strip (values i0))] else [])
      ++ submitted values (Datatypes.S i0) rest
  end.

(** The session after the calls [_store_credential(cred, value)] for
    the given pairs, one after the other. *)
Definition after_stores {S} (session : CredentialSetupSession S)
    (calls : list (MissingCredential.t * str)) (s : S) : S :=
  foldl (λ s call, (_store_credential session call.1 call.2 s).1) s calls.

End Reading.

(** ** More inputs to run the definitions on *)

Module MoreExamples.
Import Validation.

(** The example workload with nodes repeated, and a node that uses
    tools the others use already. *)
Definition repeated_nodes : list NodeSpec.t :=
  [Example.writer; Example.researcher; Example.router; Example.researcher;
   {| NodeSpec.tools := Some [u "search"; u "search"];
      NodeSpec.node_type := u "router" |}].

(** An adapter that answers as [adapter] does when it is asked about a
    sorted list without duplicates, and reports [bogus] otherwise. *)
Definition picky (adapter : CredentialStoreAdapter)
    (bogus : str * CredentialSpec.t) : CredentialStoreAdapter :=
  {| get_missing_for_tools names :=
       if decide (Sorted le names ∧ NoDup names)
       then get_missing_for_tools adapter names else [bogus];
     get_missing_for_node_types names :=
       if decide (Sorted le names ∧ NoDup names)
       then get_missing_for_node_types adapter names else [bogus] |}.

(** A process in which one key is set and the other is set to the
    empty string, besides a variable of its own. *)
Definition half_configured : process :=
  {| environ := {[ HIVE_CREDENTIAL_KEY := u "k1"; ADEN_API_KEY := [];
                   u "PATH" := u "/usr/bin" ]};
     shell_lookups := [] |}.

(** [aden_tools] with the adapter and a lookup that finds only
    [ADEN_API_KEY]. *)
Definition finds_aden (registry : list (str * CredentialSpec.t))
    (store : gset str) : aden_tools :=
  {| shell_config :=
       Some (λ v, if decide (v = ADEN_API_KEY) then (true, Some (u "aden-key"))
                  else (false, None));
     store_adapter := Some (λ _, Resolver.adapter registry store) |}.

(** A credential none of whose tools the example workload uses. *)
Definition unrelated_key : CredentialSpec.t :=
  {| CredentialSpec.env_var := u "BAR_KEY";
     CredentialSpec.tools := [u "translate"];
     CredentialSpec.node_types := [u "planner"];
     CredentialSpec.help_url := Some [] |}.


(** A lookup that finds, for every variable, a value with an embedded
    NUL. *)
Definition finds_nul : aden_tools :=
  {| shell_config := Some (λ _, (true, Some (u "key" ++ [0%N] ++ u "rest")));
     store_adapter := None |}.


(** A session whose master key cannot be ensured. *)
Definition keyless : Screen.CredentialSetupSession Session.state :=
  {| Screen._ensure_credential_key s := (s, Some (u "no key directory"));
     Screen._store_credential := Session.put [] |}.

(** A session whose store takes nothing. *)
Definition read_only : Screen.CredentialSetupSession Session.state :=
  {| Screen._ensure_credential_key := Session.ensure;
     Screen._store_credential _ _ s := (s, Some (u "store is read-only")) |}.

(** The inputs of [Example.first_only] and of [Example.both], typed
    with other whitespace around them. *)
Definition first_only_padded : nat → str :=
  Example.typed [[9] ++ u "sk-foo" ++ [10; 160]; []].

Definition both_padded : nat → str :=
  Example.typed [u "  sk-foo"; [9] ++ u "sk-ant" ++ [10]].

End MoreExamples.

(** ** The text of the error, written out *)

Module Wording.
Import Validation.







End Wording.

(** ** [ensure_credential_key_env] with the errors of [os.environ] *)

Module OsEnviron.
Import Validation.

(** How [ensure_credential_key_env] ends: it returns, or the
    [ValueError] of an assignment to [os.environ] leaves it. *)
Inductive ending := Done | ValueError.

(** [os.environ[var_name] = value] raises [ValueError] for a value with
    an embedded NUL, and [UnicodeEncodeError], which is a [ValueError],
    for a value that the encoding of the platform cannot encode.
    [encodable] is that second test; it depends on the platform. *)
Definition storable (encodable : str → bool) (value : str) : bool :=
  negb (bool_decide (0 ∈ value)) && encodable value.

(** One iteration of the loop. *)
Definition ensure_var (encodable : str → bool)
    (check : str → bool * option str)
    (p : process) (var_name : str) : ending * process :=
  if truthy_opt (environ p !! var_name) then (Done, p)
  else
    let '(found, value) := check var_name in
    let p := {| environ := environ p;
                shell_lookups := shell_lookups p ++ [var_name] |} in
    match value with
    | Some v =>
        if found && truthy v
        then
          if storable encodable v
          then (Done, {| environ := <[var_name := v]> (environ p);
                         shell_lookups := shell_lookups p |})
          else (ValueError, p)
        else (Done, p)
    | None => (Done, p)
    end.

(** The loop stops at the first assignment that raises. *)
Definition ensure_credential_key_env (encodable : str → bool)
    (m : aden_tools) (p : process) : ending * process :=
  match shell_config m with
  | None => (Done, p)
  | Some check =>
      foldl (λ run var_name,
               match run.1 with
               | Done => ensure_var encodable check run.2 var_name
               | ValueError => run
               end)
        (Done, p) [HIVE_CREDENTIAL_KEY; ADEN_API_KEY]
  end.

(** What the lookup offers for a variable: the value it reports found,
    when that value is not empty and the variable is not already set to
    a value that is not empty. *)
Definition offered (check : str → bool * option str)
    (env : gmap str str) (var_name : str) : option str :=
  if truthy_opt (env !! var_name) then None
  else match check var_name with
       | (true, Some v) => if truthy v then Some v else None
       | _ => None
       end.

(** The specification's wording of the first step of the resolution: a
    variable that is present in the environment keeps its value, and
    the lookup is not consulted for it. *)
Definition present_is_kept (encodable : str → bool) (m : aden_tools)
    (p : process) (var_name : str) : Prop :=
  is_Some (environ p !! var_name) →
  environ (ensure_credential_key_env encodable m p).2 !! var_name
  = environ p !! var_name
  ∧ var_name ∉ drop (length (shell_lookups p))
                 (shell_lookups (ensure_credential_key_env encodable m p).2).

(** A platform that encodes as UTF-8 with [surrogateescape]: every
    code point but the surrogates outside U+DC80..U+DCFF. *)
Definition utf8_encodable (value : str) : bool :=
  forallb (λ c, (c <? 55296) || (57343 <? c) || ((56448 <=? c) && (c <=? 56575)))%N
    value.

End OsEnviron.

(** * Properties *)

(** ** Python values *)

Module PyFacts.

(** *** The order on [str] and [sorted] *)

Lemma leb_total a b : leb a b = true ∨ leb b a = true.
Proof.
  revert b; induction a as [|x a IH]; intros [|y b]; simpl; auto.
  rewrite (N.compare_antisym x y).
  destruct (N.compare_spec x y); simpl; auto.
Qed.

Lemma leb_trans a b c : leb a b = true → leb b c = true → leb a c = true.
Proof.
  revert b c; induction a as [|x a IH]; intros [|y b] [|z c]; simpl; try done.
  destruct (N.compare_spec x y) as [->|Hxy|Hxy]; try done.
  - destruct (y ?= z); eauto.
  - destruct (N.compare_spec y z) as [->|Hyz|Hyz]; try done.
    + intros _ _. by apply N.compare_lt_iff in Hxy as ->.
    + intros _ _. assert (x < z) as Hxz by lia.
      by apply N.compare_lt_iff in Hxz as ->.
Qed.

Lemma leb_antisym a b : leb a b = true → leb b a = true → a = b.
Proof.
  revert b; induction a as [|x a IH]; intros [|y b]; simpl; try done.
  rewrite (N.compare_antisym x y).
  destruct (N.compare_spec x y) as [->|?|?]; simpl; try done.
  intros ??. f_equal. by apply IH.
Qed.

#[global] Instance le_total : Total le.
Proof. intros a b. apply leb_total. Qed.

#[global] Instance le_trans : Transitive le.
Proof. intros a b c. apply leb_trans. Qed.

#[global] Instance le_antisym : AntiSymm (=) le.
Proof. intros a b. apply leb_antisym. Qed.

Lemma sorted_Sorted xs : Sorted le (sorted xs).
Proof. apply Sorted_merge_sort, _. Qed.

Lemma sorted_Permutation xs : sorted xs ≡ₚ xs.
Proof. apply merge_sort_Permutation. Qed.

(** Whatever sorts [xs] returns [sorted xs]. *)
Lemma sorted_unique xs ys : Sorted le ys → ys ≡ₚ xs → ys = sorted xs.
Proof.
  intros Hs Hp. apply (Sorted_unique le); [done | apply sorted_Sorted |].
  by rewrite Hp, sorted_Permutation.
Qed.

Lemma sorted_perm xs ys : xs ≡ₚ ys → sorted xs = sorted ys.
Proof.
  intros Hp. apply sorted_unique; [apply sorted_Sorted |].
  by rewrite sorted_Permutation.
Qed.

Lemma elem_of_sorted x xs : x ∈ sorted xs ↔ x ∈ xs.
Proof. by rewrite sorted_Permutation. Qed.

Lemma NoDup_sorted xs : NoDup xs → NoDup (sorted xs).
Proof. by rewrite sorted_Permutation. Qed.

Lemma elem_of_iterate (it : set_iteration) (s : gset str) x : x ∈ it s ↔ x ∈ s.
Proof. by rewrite iterate_elements, elem_of_elements. Qed.

Lemma NoDup_iterate (it : set_iteration) (s : gset str) : NoDup (it s).
Proof. rewrite iterate_elements. apply NoDup_elements. Qed.

Lemma iterate_perm (it it' : set_iteration) (s : gset str) : it s ≡ₚ it' s.
Proof. by rewrite !iterate_elements. Qed.

End PyFacts.

Import PyFacts.

(** ** [credentials/validation.py] *)

Module ValidationFacts.
Import Validation.

(** *** Joining lines *)

Lemma join_cons sep x y l : join sep (x :: y :: l) = x ++ sep ++ join sep (y :: l).
Proof. done. Qed.

Lemma join_app_cons sep l x l' :
  ∃ before after, join sep (l ++ x :: l') = before ++ x ++ after
    ∧ (l' = [] → after = []) ∧ (l = [] → before = []).
Proof.
  induction l as [|y l IH]; simpl app.
  - exists []. destruct l' as [|z l'].
    + exists []. by rewrite app_nil_r.
    + exists (sep ++ join sep (z :: l')). by rewrite join_cons.
  - destruct IH as (b & a & Heq & Ha & _).
    exists (y ++ sep ++ b), a. split_and!; [|done|done].
    destruct l as [|y' l]; simpl app in *.
    + rewrite join_cons, Heq. by rewrite <-!app_assoc.
    + rewrite join_cons, Heq. by rewrite <-!app_assoc.
Qed.

Lemma occurs_in_join sep x lines : x ∈ lines → occurs_in x (join sep lines).
Proof.
  intros (l & l' & ->)%list_elem_of_split.
  destruct (join_app_cons sep l x l') as (b & a & ? & _). by exists b, a.
Qed.

Lemma join_first sep x lines : x `prefix_of` join sep (x :: lines).
Proof.
  destruct (join_app_cons sep [] x lines) as (b & a & Heq & _ & Hb).
  rewrite (Hb eq_refl) in Heq. by exists a.
Qed.

Lemma join_last sep lines x : x `suffix_of` join sep (lines ++ [x]).
Proof.
  destruct (join_app_cons sep lines x []) as (b & a & Heq & Ha & _).
  rewrite (Ha eq_refl), app_nil_r in Heq. by exists b.
Qed.

(** *** The two sets *)

Lemma elem_of_required_tools t nodes :
  t ∈ required_tools nodes
  ↔ ∃ node ts, node ∈ nodes ∧ NodeSpec.tools node = Some ts ∧ t ∈ ts.
Proof.
  unfold required_tools.
  enough (∀ acc : gset str,
    t ∈ foldl (λ acc node,
                 match NodeSpec.tools node with
                 | Some (t :: ts) => acc ∪ list_to_set (t :: ts)
                 | _ => acc
                 end) acc nodes
    ↔ t ∈ acc ∨ ∃ node ts, node ∈ nodes ∧ NodeSpec.tools node = Some ts ∧ t ∈ ts)
    as H.
  { rewrite H. split; [intros [[]%elem_of_empty|?]; done | by right]. }
  induction nodes as [|n nodes IH]; intros acc; cbn [foldl].
  - split; [auto | intros [?|(?&?&[]%elem_of_nil&_)]; done].
  - rewrite IH. clear IH. split.
    + intros [Hacc | (node & ts & ? & ? & ?)].
      * destruct (NodeSpec.tools n) as [[|t0 ts0]|] eqn:Hn; auto.
        apply elem_of_union in Hacc as [?|Hin]; auto.
        right. exists n, (t0 :: ts0). split_and!; [left|done|].
        by apply elem_of_list_to_set in Hin.
      * right. exists node, ts. split_and!; [by right|done..].
    + intros [Hacc | (node & ts & [->|?]%elem_of_cons & Hts & Hin)].
      * left. destruct (NodeSpec.tools n) as [[|t0 ts0]|]; auto.
        apply elem_of_union; auto.
      * left. rewrite Hts. destruct ts as [|t0 ts0]; [by apply elem_of_nil in Hin|].
        apply elem_of_union. right. by apply elem_of_list_to_set.
      * right. by exists node, ts.
Qed.

Lemma elem_of_node_types t nodes :
  t ∈ node_types nodes ↔ ∃ node, node ∈ nodes ∧ NodeSpec.node_type node = t.
Proof.
  unfold node_types. rewrite elem_of_list_to_set, list_elem_of_fmap.
  split; [intros (x & -> & ?) | intros (x & ? & <-)]; eauto.
Qed.

Lemma required_tools_perm nodes nodes' :
  nodes ≡ₚ nodes' → required_tools nodes = required_tools nodes'.
Proof.
  intros Hp. apply set_eq. intros t. rewrite !elem_of_required_tools.
  by setoid_rewrite Hp.
Qed.

Lemma node_types_perm nodes nodes' :
  nodes ≡ₚ nodes' → node_types nodes = node_types nodes'.
Proof.
  intros Hp. apply set_eq. intros t. rewrite !elem_of_node_types.
  by setoid_rewrite Hp.
Qed.

(** *** The affected names of an entry *)

Lemma affected_perm names names' of_spec :
  names ≡ₚ names' → affected names of_spec = affected names' of_spec.
Proof. intros Hp. unfold affected. apply sorted_perm. by rewrite Hp. Qed.




Lemma missing_entries_perm adapter tools tools' types types' :
  tools ≡ₚ tools' → types ≡ₚ types' →
  missing_entries adapter tools types = missing_entries adapter tools' types'.
Proof.
  intros Ht Hy. unfold missing_entries.
  rewrite (sorted_perm _ _ Ht), (sorted_perm _ _ Hy). f_equal.
  - apply list_fmap_ext. intros _ r _. unfold tool_entry.
    by rewrite (affected_perm _ _ _ Ht).
  - apply list_fmap_ext. intros _ r _. unfold node_type_entry.
    by rewrite (affected_perm _ _ _ Hy).
Qed.

(** *** Absent collaborators *)

(** C4.  When the store adapter of [aden_tools] cannot be imported,
    [validate_agent_credentials] returns normally for every node list
    and leaves the process as it was; when the shell-config lookup
    cannot be imported, [ensure_credential_key_env] returns with the
    process, in particular the environment, as it was. *)
Theorem absent_collaborator_is_no_error :
  (∀ it_tools it_types check nodes p,
     validate_agent_credentials it_tools it_types
       {| shell_config := check; store_adapter := None |} nodes p
     = (Returned, p))
  ∧ (∀ default p,
       ensure_credential_key_env
         {| shell_config := None; store_adapter := default |} p = p).
Proof. split; reflexivity. Qed.

(** *** Resolution of the two key variables *)

Lemma vars_distinct : HIVE_CREDENTIAL_KEY ≠ ADEN_API_KEY.
Proof. by vm_compute. Qed.

Lemma ensure_var_lookups check p v :
  shell_lookups (ensure_var check p v)
  = shell_lookups p
    ++ (if truthy_opt (environ p !! v) then [] else [v]).
Proof.
  unfold ensure_var. destruct (truthy_opt _); [by rewrite app_nil_r|].
  destruct (check v) as [found [x|]]; [|done].
  by destruct (found && truthy x).
Qed.

Lemma ensure_var_environ check p v w :
  environ (ensure_var check p v) !! w
  = if decide (w = v) then resolved check (environ p) v else environ p !! w.
Proof.
  unfold ensure_var, resolved.
  destruct (truthy_opt (environ p !! v)) eqn:Hv.
  { by case_decide; subst. }
  destruct (check v) as [found [x|]]; simpl.
  - destruct found, (truthy x); simpl;
      case_decide; subst; by rewrite ?lookup_insert_eq, ?lookup_insert_ne.
  - by destruct found; case_decide; subst.
Qed.


(** *** Resolution of the two key variables, with the errors of
    [os.environ] *)

Section resolution.
Context (encodable : str → bool) (check : str → bool * option str).

(** One iteration: whether the assignment raised, what has been looked
    up and what the environment holds afterwards. *)
Lemma os_ensure_var (p : process) (v : str) :
  OsEnviron.ensure_var encodable check p v
  = (match OsEnviron.offered check (environ p) v with
     | Some x => if OsEnviron.storable encodable x then OsEnviron.Done
                 else OsEnviron.ValueError
     | None => OsEnviron.Done
     end,
     {| environ := match OsEnviron.offered check (environ p) v with
                   | Some x => if OsEnviron.storable encodable x
                               then <[v := x]> (environ p) else environ p
                   | None => environ p
                   end;
        shell_lookups := shell_lookups p
                         ++ (if truthy_opt (environ p !! v) then [] else [v]) |}).
Proof.
  unfold OsEnviron.ensure_var, OsEnviron.offered.
  destruct (truthy_opt (environ p !! v)).
  { rewrite app_nil_r. by destruct p. }
  destruct (check v) as [[] [x|]]; cbn [andb]; try done.
  destruct (truthy x); [|done].
  by destruct (OsEnviron.storable encodable x).
Qed.

Lemma offered_insert_ne (env : gmap str str) v w x :
  v ≠ w →
  OsEnviron.offered check (<[v := x]> env) w = OsEnviron.offered check env w.
Proof. intros Hne. unfold OsEnviron.offered. by rewrite lookup_insert_ne. Qed.

End resolution.

(** C6, as the specification words it, fails for a variable that is
    present with the empty string as its value: the lookup is
    consulted and the value is replaced. *)
Lemma empty_value_is_overwritten :
  ¬ OsEnviron.present_is_kept OsEnviron.utf8_encodable
      Example.found_in_shell Example.empty_key_process HIVE_CREDENTIAL_KEY.
Proof.
  intros H. destruct H as [Henv _].
  - by exists [].
  - vm_compute in Henv. discriminate Henv.
Qed.

(** C6, as the code has it.  With the lookup installed,
    [HIVE_CREDENTIAL_KEY] and then [ADEN_API_KEY] are resolved in this
    way.  A variable that is set to a value that is not empty is left
    unchanged and the lookup is not consulted for it.  Otherwise (not
    set, or set to the empty string) the lookup is consulted once, and
    when it reports the variable found with a value that is not empty,
    that value is assigned to the variable.  An assignment that
    [os.environ] refuses (a value with an embedded NUL, or one that
    cannot be encoded) raises [ValueError], which leaves the function:
    the variable stays as it was, and a variable that comes later is
    neither looked up nor changed.  No other variable is touched. *)
Theorem ensure_credential_key_env_resolution
    (encodable : str → bool) (check : str → bool * option str) default p :
  let run := OsEnviron.ensure_credential_key_env encodable
               {| shell_config := Some check; store_adapter := default |} p in
  let env := environ p in
  let looked v := if truthy_opt (env !! v) then [] else [v] in
  let refused v :=
    match OsEnviron.offered check env v with
    | Some x => negb (OsEnviron.storable encodable x)
    | None => false
    end in
  let settled v :=
    match OsEnviron.offered check env v with
    | Some x => if OsEnviron.storable encodable x then Some x else env !! v
    | None => env !! v
    end in
  run.1 = (if refused HIVE_CREDENTIAL_KEY || refused ADEN_API_KEY
           then OsEnviron.ValueError else OsEnviron.Done)
  ∧ shell_lookups run.2
    = shell_lookups p ++ looked HIVE_CREDENTIAL_KEY
      ++ (if refused HIVE_CREDENTIAL_KEY then [] else looked ADEN_API_KEY)
  ∧ ∀ v, environ run.2 !! v
         = if decide (v = HIVE_CREDENTIAL_KEY) then settled HIVE_CREDENTIAL_KEY
           else if decide (v = ADEN_API_KEY)
                then (if refused HIVE_CREDENTIAL_KEY then env !! v
                      else settled ADEN_API_KEY)
                else env !! v.
Proof.
  pose proof vars_distinct as Hne.
  intros run env looked refused settled. subst run env looked refused settled.
  cbn [OsEnviron.ensure_credential_key_env shell_config foldl fst snd].
  rewrite (os_ensure_var encodable check p HIVE_CREDENTIAL_KEY). cbn [fst snd].
  destruct (OsEnviron.offered check (environ p) HIVE_CREDENTIAL_KEY) as [x|] eqn:H1.
  - destruct (OsEnviron.storable encodable x) eqn:Hx; cbn [negb orb fst snd].
    + rewrite os_ensure_var. cbn [environ shell_lookups fst snd].
      rewrite offered_insert_ne by done. rewrite lookup_insert_ne by done.
      rewrite <-app_assoc. split_and!; [|done|].
      * by destruct (OsEnviron.offered check (environ p) ADEN_API_KEY) as [y|];
          [destruct (OsEnviron.storable encodable y)|].
      * intros v. destruct (decide (v = HIVE_CREDENTIAL_KEY)) as [->|Hv].
        { destruct (OsEnviron.offered check (environ p) ADEN_API_KEY) as [y|];
            [destruct (OsEnviron.storable encodable y)|];
            by rewrite ?(lookup_insert_ne _ ADEN_API_KEY) by done;
               rewrite lookup_insert_eq. }
        destruct (decide (v = ADEN_API_KEY)) as [->|Hv'].
        { destruct (OsEnviron.offered check (environ p) ADEN_API_KEY) as [y|];
            [destruct (OsEnviron.storable encodable y)|];
            by rewrite ?lookup_insert_eq, ?lookup_insert_ne by done. }
        destruct (OsEnviron.offered check (environ p) ADEN_API_KEY) as [y|];
          [destruct (OsEnviron.storable encodable y)|];
          by rewrite ?lookup_insert_ne by done.
    + rewrite app_nil_r. split_and!; [done..|].
      intros v. cbn [environ]. repeat case_decide; by subst.
  - cbn [orb fst snd]. rewrite os_ensure_var. cbn [environ shell_lookups fst snd].
    rewrite <-app_assoc. split_and!; [|done|].
    + by destruct (OsEnviron.offered check (environ p) ADEN_API_KEY) as [y|];
        [destruct (OsEnviron.storable encodable y)|].
    + intros v. destruct (decide (v = HIVE_CREDENTIAL_KEY)) as [->|Hv].
      { destruct (OsEnviron.offered check (environ p) ADEN_API_KEY) as [y|];
          [destruct (OsEnviron.storable encodable y)|];
          by rewrite ?lookup_insert_ne by done. }
      destruct (decide (v = ADEN_API_KEY)) as [->|Hv'].
      { destruct (OsEnviron.offered check (environ p) ADEN_API_KEY) as [y|];
          [destruct (OsEnviron.storable encodable y)|];
          by rewrite ?lookup_insert_eq. }
      destruct (OsEnviron.offered check (environ p) ADEN_API_KEY) as [y|];
        [destruct (OsEnviron.storable encodable y)|];
        by rewrite ?lookup_insert_ne by done.
Qed.

(** When no assignment raises, the process is left as
    [Validation.ensure_credential_key_env] describes it. *)
Lemma ensure_var_done encodable check p v p' :
  OsEnviron.ensure_var encodable check p v = (OsEnviron.Done, p') →
  ensure_var check p v = p'.
Proof.
  unfold OsEnviron.ensure_var, ensure_var.
  destruct (truthy_opt (environ p !! v)); [by intros [= <-]|].
  destruct (check v) as [found [x|]]; [|by intros [= <-]].
  destruct (found && truthy x); [|by intros [= <-]].
  destruct (OsEnviron.storable encodable x); [by intros [= <-]|done].
Qed.

Lemma ensure_credential_key_env_done encodable m p :
  (OsEnviron.ensure_credential_key_env encodable m p).1 = OsEnviron.Done →
  (OsEnviron.ensure_credential_key_env encodable m p).2
  = ensure_credential_key_env m p.
Proof.
  unfold OsEnviron.ensure_credential_key_env, ensure_credential_key_env.
  destruct (shell_config m) as [check|]; [|done]. cbn [foldl fst snd].
  destruct (OsEnviron.ensure_var encodable check p HIVE_CREDENTIAL_KEY)
    as [[] p1] eqn:H1; cbn [fst snd]; [|done].
  apply ensure_var_done in H1 as ->.
  destruct (OsEnviron.ensure_var encodable check _ ADEN_API_KEY)
    as [[] p2] eqn:H2; cbn [fst snd]; [|done].
  intros _. by apply ensure_var_done in H2.
Qed.

(** A value with an embedded NUL for the first variable: the assignment
    raises, nothing is set, and the second variable is not looked up. *)
Example example_refused_value :
  OsEnviron.ensure_credential_key_env OsEnviron.utf8_encodable
    MoreExamples.finds_nul Example.idle
  = (OsEnviron.ValueError,
     {| environ := ∅; shell_lookups := [HIVE_CREDENTIAL_KEY] |}).
Proof. vm_compute. reflexivity. Qed.

(** The first variable is set, the second is found with a value that is
    refused: the first stays as it is, the error leaves the function. *)
Example example_refused_second_value :
  OsEnviron.ensure_credential_key_env OsEnviron.utf8_encodable
    MoreExamples.finds_nul
    {| environ := {[ HIVE_CREDENTIAL_KEY := u "k1" ]}; shell_lookups := [] |}
  = (OsEnviron.ValueError,
     {| environ := {[ HIVE_CREDENTIAL_KEY := u "k1" ]};
        shell_lookups := [ADEN_API_KEY] |}).
Proof. vm_compute. reflexivity. Qed.

Example example_found_values :
  OsEnviron.ensure_credential_key_env OsEnviron.utf8_encodable
    Example.found_in_shell Example.empty_key_process
  = (OsEnviron.Done,
     ensure_credential_key_env Example.found_in_shell Example.empty_key_process).
Proof. vm_compute. reflexivity. Qed.


(** *** Raising *)

Lemma validate_installed (it_tools it_types : set_iteration) check default nodes p :
  let m := {| shell_config := check; store_adapter := Some default |} in
  let p' := ensure_credential_key_env m p in
  let missing := missing_entries (default (environ p'))
                   (it_tools (required_tools nodes))
                   (it_types (node_types nodes)) in
  validate_agent_credentials it_tools it_types m nodes p
  = match missing with
    | [] => (Returned, p')
    | _ :: _ =>
        (Raised (MkCredentialError (join NL ([header] ++ missing ++ [fix_hint]))), p')
    end.
Proof. reflexivity. Qed.


(** *** Independence of the order of the input *)

(** C5.  Two node lists that are permutations of each other, with
    whatever orders the two sets are iterated in, give the same
    outcome: the same error with the same message, or the same normal
    return. *)
Theorem validate_order_independent
    (it_tools it_types it_tools' it_types' : set_iteration) m nodes nodes' p :
  nodes ≡ₚ nodes' →
  validate_agent_credentials it_tools it_types m nodes p
  = validate_agent_credentials it_tools' it_types' m nodes' p.
Proof.
  intros Hp. unfold validate_agent_credentials.
  destruct (store_adapter m) as [default|]; [|done].
  rewrite (missing_entries_perm _
             (it_tools (required_tools nodes)) (it_tools' (required_tools nodes'))
             (it_types (node_types nodes)) (it_types' (node_types nodes'))).
  - done.
  - rewrite (required_tools_perm _ _ Hp). apply iterate_perm.
  - rewrite (node_types_perm _ _ Hp). apply iterate_perm.
Qed.


Lemma validate_order_independent_witness :
  validate_agent_credentials in_hash_order in_hash_order
    (Resolver.installed Example.registry ∅)
    [Example.researcher; Example.router; Example.writer] Example.idle
  = validate_agent_credentials in_reverse_hash_order in_reverse_hash_order
      (Resolver.installed Example.registry ∅)
      [Example.writer; Example.researcher; Example.router] Example.idle.
Proof.
  apply validate_order_independent.
  change ([Example.researcher; Example.router] ++ [Example.writer]
          ≡ₚ [Example.writer] ++ [Example.researcher; Example.router]).
  apply Permutation_app_comm.
Defined.



(** *** The text of the message *)










(** *** The error that is raised *)

Import Wording.






(** *** One entry per pass *)






(** *** The example workload *)

Example sorted_by_code_point :
  sorted [u "search"; u "Search"; u "crawl"; u "search2"]
  = [u "Search"; u "crawl"; u "search"; u "search2"].
Proof. reflexivity. Qed.

Example example_sets :
  elements (required_tools Example.nodes) ≡ₚ [u "search"; u "summarize"]
  ∧ elements (node_types Example.nodes)
    ≡ₚ [u "llm_generate"; u "llm_tool_use"; u "router"].
Proof.
  split.
  - vm_compute. reflexivity.
  - vm_compute. apply (Permutation_app_comm [_] [_; _]).
Qed.

(** Nothing in the store: both credentials are listed, the one needed by
    a tool and by node types twice. *)
Example example_message :
  (validate_agent_credentials in_hash_order in_reverse_hash_order
     (Resolver.installed Example.registry ∅) Example.nodes Example.idle).1
  = Raised (MkCredentialError
      (u "Missing required credentials:" ++ NL
       ++ NL
       ++ u "  FOO_KEY for search" ++ NL
       ++ u "  ANTHROPIC_API_KEY for summarize" ++ NL
       ++ u "    Get it at: https://console.anthropic.com/settings/keys" ++ NL
       ++ u "  ANTHROPIC_API_KEY for llm_generate, llm_tool_use nodes" ++ NL
       ++ u "    Get it at: https://console.anthropic.com/settings/keys" ++ NL
       ++ NL
       ++ u "To fix: run /hive-credentials in Claude Code." ++ NL
       ++ u "If you've already set up credentials, restart your terminal to load them.")).
Proof. vm_compute. reflexivity. Qed.

(** Everything in the store: nothing is raised. *)
Example example_return :
  validate_agent_credentials in_hash_order in_hash_order
    (Resolver.installed Example.registry Example.full_store)
    Example.nodes Example.idle
  = (Returned, Example.idle).
Proof. vm_compute. reflexivity. Qed.

(** A workload without tools and without nodes needs nothing. *)
Example example_empty_workload :
  validate_agent_credentials in_hash_order in_hash_order
    (Resolver.installed Example.registry ∅) [] Example.idle
  = (Returned, Example.idle).
Proof. vm_compute. reflexivity. Qed.

(** Both variables are looked up in the shell configuration when the
    environment has neither. *)
Example example_ensure :
  let p := ensure_credential_key_env Example.found_in_shell Example.idle in
  environ p !! HIVE_CREDENTIAL_KEY = Some (u "key-from-shell")
  ∧ environ p !! ADEN_API_KEY = Some (u "key-from-shell")
  ∧ shell_lookups p = [HIVE_CREDENTIAL_KEY; ADEN_API_KEY].
Proof. vm_compute. split_and!; reflexivity. Qed.

(** *** Further properties of the validation *)

(** X1.  The outcome depends on the node list only through the set of
    tool names and the set of node types: node lists with the same two
    sets (nodes repeated, reordered, or using tools already used) give
    the same outcome, whatever the iteration orders. *)
Theorem validate_depends_on_sets
    (it_tools it_types it_tools' it_types' : set_iteration) m nodes nodes' p :
  required_tools nodes = required_tools nodes' →
  node_types nodes = node_types nodes' →
  validate_agent_credentials it_tools it_types m nodes p
  = validate_agent_credentials it_tools' it_types' m nodes' p.
Proof.
  intros Ht Hy. unfold validate_agent_credentials.
  destruct (store_adapter m) as [default|]; [|done].
  rewrite (missing_entries_perm _
             (it_tools (required_tools nodes)) (it_tools' (required_tools nodes'))
             (it_types (node_types nodes)) (it_types' (node_types nodes'))).
  - done.
  - rewrite Ht. apply iterate_perm.
  - rewrite Hy. apply iterate_perm.
Qed.

Lemma validate_depends_on_sets_witness :
  validate_agent_credentials in_hash_order in_hash_order
    (Resolver.installed Example.registry ∅) Example.nodes Example.idle
  = validate_agent_credentials in_reverse_hash_order in_hash_order
      (Resolver.installed Example.registry ∅) MoreExamples.repeated_nodes
      Example.idle.
Proof. apply validate_depends_on_sets; vm_compute; reflexivity. Defined.

Lemma sorted_iterate (it : set_iteration) (s : gset str) :
  Sorted le (sorted (it s)) ∧ NoDup (sorted (it s))
  ∧ ∀ t, t ∈ sorted (it s) ↔ t ∈ s.
Proof.
  split_and!.
  - apply sorted_Sorted.
  - apply NoDup_sorted, NoDup_iterate.
  - intros t. by rewrite elem_of_sorted, elem_of_iterate.
Qed.

(** X2.  The adapter is only ever asked about sorted lists without
    duplicates that hold exactly the workload's tool names (node
    types): two adapters that agree on such lists give the same
    outcome. *)
Theorem adapter_is_asked_sorted_sets
    (it_tools it_types : set_iteration) check default default' nodes p :
  (∀ env names,
     Sorted le names → NoDup names →
     (∀ t, t ∈ names ↔ t ∈ required_tools nodes) →
     get_missing_for_tools (default env) names
     = get_missing_for_tools (default' env) names) →
  (∀ env names,
     Sorted le names → NoDup names →
     (∀ t, t ∈ names ↔ t ∈ node_types nodes) →
     get_missing_for_node_types (default env) names
     = get_missing_for_node_types (default' env) names) →
  validate_agent_credentials it_tools it_types
    {| shell_config := check; store_adapter := Some default |} nodes p
  = validate_agent_credentials it_tools it_types
      {| shell_config := check; store_adapter := Some default' |} nodes p.
Proof.
  intros Ht Hy. rewrite !validate_installed. cbv zeta.
  assert (∀ a, ensure_credential_key_env
                 {| shell_config := check; store_adapter := Some a |} p
               = ensure_credential_key_env
                   {| shell_config := check; store_adapter := None |} p) as Hens
    by done.
  rewrite (Hens default), (Hens default').
  set (p' := ensure_credential_key_env _ p).
  assert (missing_entries (default (environ p'))
            (it_tools (required_tools nodes)) (it_types (node_types nodes))
          = missing_entries (default' (environ p'))
              (it_tools (required_tools nodes)) (it_types (node_types nodes)))
    as ->; [|done].
  unfold missing_entries.
  destruct (sorted_iterate it_tools (required_tools nodes)) as (?&?&?).
  destruct (sorted_iterate it_types (node_types nodes)) as (?&?&?).
  by rewrite Ht, Hy.
Qed.

Lemma adapter_is_asked_sorted_sets_witness :
  validate_agent_credentials in_reverse_hash_order in_reverse_hash_order
    {| shell_config := None;
       store_adapter := Some (λ _, Resolver.adapter Example.registry ∅) |}
    MoreExamples.repeated_nodes Example.idle
  = validate_agent_credentials in_reverse_hash_order in_reverse_hash_order
      {| shell_config := None;
         store_adapter :=
           Some (λ _, MoreExamples.picky (Resolver.adapter Example.registry ∅)
                        (u "bogus", MoreExamples.unrelated_key)) |}
      MoreExamples.repeated_nodes Example.idle.
Proof.
  apply adapter_is_asked_sorted_sets.
  - intros env names Hs Hn _. cbn [MoreExamples.picky get_missing_for_tools].
    by rewrite decide_True.
  - intros env names Hs Hn _. cbn [MoreExamples.picky get_missing_for_node_types].
    by rewrite decide_True.
Defined.

Lemma ensure_environ check default p v :
  environ (ensure_credential_key_env
             {| shell_config := Some check; store_adapter := default |} p) !! v
  = if decide (v ∈ [HIVE_CREDENTIAL_KEY; ADEN_API_KEY])
    then resolved check (environ p) v
    else environ p !! v.
Proof.
  pose proof vars_distinct as Hne.
  cbn [ensure_credential_key_env shell_config foldl].
  rewrite ensure_var_environ.
  destruct (decide (v = ADEN_API_KEY)) as [->|Hv].
  - rewrite decide_True by (rewrite !elem_of_cons; auto).
    unfold resolved. by rewrite !ensure_var_environ, decide_False.
  - rewrite ensure_var_environ.
    destruct (decide (v = HIVE_CREDENTIAL_KEY)) as [->|Hv'].
    + by rewrite decide_True by (rewrite !elem_of_cons; auto).
    + rewrite decide_False; [done|].
      rewrite !elem_of_cons, elem_of_nil. tauto.
Qed.

Lemma resolved_again (check : str → bool * option str)
    (env env' : gmap str str) (v : str) :
  env' !! v = resolved check env v →
  resolved check env' v = resolved check env v.
Proof.
  unfold resolved. destruct (truthy_opt (env !! v)) eqn:Hv.
  - intros ->. by rewrite Hv.
  - destruct (check v) as [[] [x|]]; try (intros ->; by rewrite Hv).
    destruct (truthy x) eqn:Hx; [|intros ->; by rewrite Hv].
    intros ->. cbn [truthy_opt]. by rewrite Hx.
Qed.

Lemma resolved_keeps (check : str → bool * option str)
    (env : gmap str str) (v x : str) :
  env !! v = Some x →
  is_Some (resolved check env v) ∧ (x ≠ [] → resolved check env v = Some x).
Proof.
  intros Hv. unfold resolved. rewrite Hv. cbn [truthy_opt]. destruct x as [|c x].
  - cbn [truthy]. split; [|done].
    destruct (check v) as [[] [[|??]|]]; cbn [truthy]; by eexists.
  - cbn [truthy]. split; [by eexists|done].
Qed.

(** X3.  Running [ensure_credential_key_env] a second time leaves the
    environment as the first run left it. *)
Theorem ensure_credential_key_env_idempotent m p :
  environ (ensure_credential_key_env m (ensure_credential_key_env m p))
  = environ (ensure_credential_key_env m p).
Proof.
  destruct m as [[check|] default]; [|done].
  apply map_eq. intros v. rewrite ensure_environ.
  case_decide; [|done].
  rewrite (resolved_again check (environ p)).
  - rewrite ensure_environ. by rewrite decide_True.
  - rewrite ensure_environ. by rewrite decide_True.
Qed.

(** X4.  Whether it raises or returns, and whatever is installed,
    [validate_agent_credentials] changes the environment at most at
    [HIVE_CREDENTIAL_KEY] and [ADEN_API_KEY]; it removes no variable and
    changes no variable that is set to a non-empty value. *)
Theorem validate_touches_only_key_variables
    (it_tools it_types : set_iteration) m nodes p v :
  let p' := (validate_agent_credentials it_tools it_types m nodes p).2 in
  (v ≠ HIVE_CREDENTIAL_KEY → v ≠ ADEN_API_KEY →
     environ p' !! v = environ p !! v)
  ∧ (∀ x, environ p !! v = Some x →
       is_Some (environ p' !! v) ∧ (x ≠ [] → environ p' !! v = Some x)).
Proof.
  intros p'. subst p'. unfold validate_agent_credentials.
  destruct m as [check [default|]]; cbn [store_adapter snd];
    [|split; [done|intros x Hx; rewrite Hx; split; [by eexists|done]]].
  assert (∀ a b (q : process), (match a with
                                | [] => (b, q)
                                | _ :: _ => (Raised (MkCredentialError
                                     (join NL ([header] ++ a ++ [fix_hint]))), q)
                                end).2 = q) as Hsnd by (by intros []).
  rewrite Hsnd. clear Hsnd.
  destruct check as [check|];
    [|cbn [ensure_credential_key_env shell_config];
      split; [done|intros x Hx; rewrite Hx; split; [by eexists|done]]].
  split.
  - intros H1 H2. rewrite ensure_environ, decide_False; [done|].
    rewrite !elem_of_cons, elem_of_nil. tauto.
  - intros x Hx. rewrite !ensure_environ. case_decide.
    + by apply resolved_keeps.
    + split; [exists x; exact Hx | intros _; exact Hx].
Qed.

Lemma validate_touches_only_key_variables_witness :
  let run := validate_agent_credentials in_hash_order in_hash_order
               (MoreExamples.finds_aden Example.registry ∅)
               Example.nodes MoreExamples.half_configured in
  run.1 ≠ Returned
  ∧ environ run.2 !! u "PATH" = Some (u "/usr/bin")
  ∧ environ run.2 !! HIVE_CREDENTIAL_KEY = Some (u "k1")
  ∧ environ run.2 !! ADEN_API_KEY = Some (u "aden-key").
Proof.
  cbv zeta. split_and!.
  - vm_compute. discriminate.
  - rewrite (proj1 (validate_touches_only_key_variables in_hash_order in_hash_order
      (MoreExamples.finds_aden Example.registry ∅) Example.nodes
      MoreExamples.half_configured (u "PATH"))); [|vm_compute; discriminate..].
    vm_compute. reflexivity.
  - apply (proj2 (validate_touches_only_key_variables in_hash_order in_hash_order
      (MoreExamples.finds_aden Example.registry ∅) Example.nodes
      MoreExamples.half_configured HIVE_CREDENTIAL_KEY) (u "k1")).
    + vm_compute. reflexivity.
    + vm_compute. discriminate.
  - vm_compute. reflexivity.
Defined.



(** *** Reports that affect nothing *)



End ValidationFacts.

(** ** [tui/screens/credential_setup.py] *)

Module ScreenFacts.
Import Screen.

(** *** [strip] *)

Lemma lstrip_spec s :
  ∃ ws, s = ws ++ lstrip s
    ∧ Forall (λ c, isspace c = true) ws
    ∧ ∀ c, head (lstrip s) = Some c → isspace c = false.
Proof.
  induction s as [|c s (ws & Heq & Hws & Hhd)]; simpl.
  - exists []. split_and!; [done|constructor|done].
  - destruct (isspace c) eqn:Hc.
    + exists (c :: ws). split_and!; [by rewrite Heq at 1|by constructor|done].
    + exists []. split_and!; [done|constructor|]. by intros ? [= <-].
Qed.

Lemma strip_spec s :
  ∃ l r, s = l ++ strip s ++ r
    ∧ Forall (λ c, isspace c = true) l
    ∧ Forall (λ c, isspace c = true) r
    ∧ (∀ c, head (strip s) = Some c → isspace c = false)
    ∧ (∀ c, last (strip s) = Some c → isspace c = false).
Proof.
  unfold strip, rstrip.
  destruct (lstrip_spec s) as (l & Hl & Hlws & Hhd).
  destruct (lstrip_spec (reverse (lstrip s))) as (r & Hr & Hrws & Hlast).
  assert (lstrip s = reverse (lstrip (reverse (lstrip s))) ++ reverse r) as Ht.
  { rewrite <-reverse_app, <-Hr. by rewrite reverse_involutive. }
  exists l, (reverse r). split_and!.
  - by rewrite <-Ht.
  - done.
  - by apply Forall_reverse.
  - intros c Hc. apply Hhd. rewrite Ht.
    destruct (reverse (lstrip (reverse (lstrip s)))); [done|by simplify_eq/=].
  - intros c Hc. apply Hlast. by rewrite last_reverse in Hc.
Qed.

Lemma strip_blank s : Forall (λ c, isspace c = true) s → strip s = [].
Proof.
  intros Hs. unfold strip, rstrip.
  assert (lstrip s = []) as ->; [|done].
  induction Hs as [|c s Hc _ IH]; simpl; [done|]. by rewrite Hc.
Qed.

(** *** The loop *)

Lemma configured_count_app tr tr' :
  configured_count (tr ++ tr') = (configured_count tr + configured_count tr')%nat.
Proof. unfold configured_count. by rewrite filter_app, length_app. Qed.

Lemma save_entry_run {S} (session : CredentialSetupSession S)
    c i cred (sc : screen S) :
  save_entry session c i cred sc
  = let value := strip (inputs sc i) in
    if truthy value then
      (inr (match (_store_credential session cred value (_session sc)).2 with
            | None => (c + 1)%nat
            | Some _ => c
            end),
       {| _session := (_store_credential session cred value (_session sc)).1;
          _missing := _missing sc; inputs := inputs sc;
          trace := trace sc
                   ++ ReadInput i
                      :: StoreCredential i cred value
                           (_store_credential session cred value (_session sc)).2
                      :: match (_store_credential session cred value (_session sc)).2 with
                         | Some e => [error_report cred e]
                         | None => []
                         end |})
    else
      (inr c,
       {| _session := _session sc; _missing := _missing sc; inputs := inputs sc;
          trace := trace sc ++ [ReadInput i] |}).
Proof.
  unfold save_entry, mbind, M_bind, bind, input_value, try_store_credential,
    notify, ret, emit.
  cbv beta zeta. cbn [_session _missing inputs trace].
  destruct (truthy (strip (inputs sc i))); [|done].
  cbv beta zeta. cbn [_session _missing inputs trace].
  destruct (_store_credential session cred (strip (inputs sc i)) (_session sc))
    as [s' [e|]]; cbn [fst snd _session _missing inputs trace].
  - by rewrite <-!app_assoc.
  - by rewrite <-!app_assoc.
Qed.

Lemma for_enumerate_save_entry {S} (session : CredentialSetupSession S)
    i0 creds c (sc : screen S) :
  for_enumerate (save_entry session) i0 creds c sc
  = (inr (c + configured_count
                (entries_events session (inputs sc) i0 creds (_session sc)).1)%nat,
     {| _session := (entries_events session (inputs sc) i0 creds (_session sc)).2;
        _missing := _missing sc; inputs := inputs sc;
        trace := trace sc
                 ++ (entries_events session (inputs sc) i0 creds (_session sc)).1 |}).
Proof.
  revert i0 c sc. induction creds as [|cred rest IH]; intros i0 c sc.
  - simpl. unfold ret. rewrite app_nil_r, Nat.add_0_r. by destruct sc.
  - cbn [for_enumerate entries_events].
    unfold mbind, M_bind, bind. rewrite save_entry_run. cbv zeta.
    destruct (truthy (strip (inputs sc i0))).
    + rewrite IH. cbn [_session _missing inputs trace].
      destruct (_store_credential session cred (strip (inputs sc i0)) (_session sc))
        as [s' r]. cbn [fst snd].
      destruct (entries_events session (inputs sc) (Datatypes.S i0) rest s')
        as [evs s'']. cbn [fst snd].
      rewrite <-app_assoc. cbn [app].
      destruct r as [e|]; cbn [app]; [done|].
      do 2 f_equal.
      change (configured_count (?a :: ?b :: evs))
        with (Datatypes.S (configured_count evs)). lia.
    + rewrite IH. cbn [_session _missing inputs trace].
      destruct (entries_events session (inputs sc) (Datatypes.S i0) rest (_session sc))
        as [evs s'']. cbn [fst snd].
      by rewrite <-app_assoc.
Qed.

Lemma save_credentials_run {S} (session : CredentialSetupSession S)
    s creds values :
  _save_credentials session (init s creds values)
  = match (_ensure_credential_key session s).2 with
    | Some e =>
        (inl e,
         {| _session := (_ensure_credential_key session s).1;
            _missing := creds; inputs := values; trace := [EnsureKey] |})
    | None =>
        let run := entries_events session values 0 creds
                     (_ensure_credential_key session s).1 in
        (inr (),
         {| _session := run.2; _missing := creds; inputs := values;
            trace := EnsureKey :: run.1 ++ [closing (configured_count run.1)] |})
    end.
Proof.
  unfold _save_credentials, mbind, M_bind, bind at 1.
  unfold ensure_credential_key, init, emit. cbn [_session _missing inputs trace].
  destruct (_ensure_credential_key session s) as [s1 [e|]]; cbn [fst snd app]; [done|].
  unfold bind at 1, missing at 1. cbn [_missing]. unfold bind.
  rewrite for_enumerate_save_entry. cbn [_session _missing inputs trace].
  cbv zeta. unfold closing, dismiss, notify, emit.
  cbn [_session _missing inputs trace Nat.add].
  by destruct (0 <? _)%nat.
Qed.

(** *** The events of the loop *)

Lemma filter_bool_cons {A} (f : A → bool) x l :
  filter f (x :: l) = if f x then x :: filter f l else filter f l.
Proof. rewrite filter_cons. by destruct (f x). Qed.

Section loop.
Context {S : Type} (session : CredentialSetupSession S) (values : nat → str).

Lemma entries_events_cons i0 cred rest s :
  entries_events session values i0 (cred :: rest) s
  = if truthy (strip (values i0)) then
      let st := _store_credential session cred (strip (values i0)) s in
      let run := entries_events session values (Datatypes.S i0) rest st.1 in
      (ReadInput i0 :: StoreCredential i0 cred (strip (values i0)) st.2
         :: match st.2 with Some e => [error_report cred e] | None => [] end
         ++ run.1,
       run.2)
    else
      let run := entries_events session values (Datatypes.S i0) rest s in
      (ReadInput i0 :: run.1, run.2).
Proof.
  cbn [entries_events]. destruct (truthy _).
  - destruct (_store_credential _ _ _ _) as [s' r]. cbn [fst snd].
    by destruct (entries_events _ _ _ _ _).
  - by destruct (entries_events _ _ _ _ _).
Qed.

Lemma truthy_nil (v : str) : truthy v = false ↔ v = [].
Proof. by destruct v. Qed.

Lemma truthy_true (v : str) : truthy v = true ↔ v ≠ [].
Proof. by destruct v. Qed.

(** A store event belongs to an entry of the list, and carries the
    stripped value of its input, which is not empty. *)
Lemma store_event_origin i0 creds s i cred v r :
  StoreCredential i cred v r ∈ (entries_events session values i0 creds s).1 →
  (i0 ≤ i)%nat ∧ creds !! (i - i0)%nat = Some cred
  ∧ v = strip (values i) ∧ v ≠ [].
Proof.
  revert i0 s. induction creds as [|c rest IH]; intros i0 s.
  { cbn. by intros ?%elem_of_nil. }
  rewrite entries_events_cons.
  destruct (truthy (strip (values i0))) eqn:Hv; cbv zeta; cbn [fst].
  - rewrite !elem_of_cons, elem_of_app.
    intros [?|[Heq|[Hin|Hin]]]; [done|..].
    + injection Heq as -> -> -> ->. rewrite Nat.sub_diag.
      split_and!; [done..|]. by apply truthy_true.
    + destruct (_store_credential _ _ _ _).2; [|by apply elem_of_nil in Hin].
      by apply list_elem_of_singleton in Hin.
    + apply IH in Hin as (Hle & Hl & ? & ?). split_and!; [lia| |done..].
      replace (i - i0)%nat with (Datatypes.S (i - Datatypes.S i0)) by lia. done.
  - rewrite elem_of_cons. intros [?|Hin]; [done|].
    apply IH in Hin as (Hle & Hl & ? & ?). split_and!; [lia| |done..].
    replace (i - i0)%nat with (Datatypes.S (i - Datatypes.S i0)) by lia. done.
Qed.

(** Every entry whose input is not blank is handed to the store,
    whatever became of the entries before it. *)
Lemma nonblank_entry_is_stored i0 creds s k cred :
  creds !! k = Some cred → strip (values (i0 + k)%nat) ≠ [] →
  ∃ r, StoreCredential (i0 + k)%nat cred (strip (values (i0 + k)%nat)) r
         ∈ (entries_events session values i0 creds s).1.
Proof.
  revert i0 s k. induction creds as [|c rest IH]; intros i0 s k; [done|].
  rewrite entries_events_cons. destruct k as [|k]; cbn [lookup list_lookup].
  - intros [= ->] Hv. rewrite Nat.add_0_r in *.
    apply truthy_true in Hv as ->. cbv zeta. cbn [fst].
    eexists. apply elem_of_cons. right. apply elem_of_cons. by left.
  - intros Hk Hv. replace (i0 + Datatypes.S k)%nat with (Datatypes.S i0 + k)%nat in * by lia.
    destruct (truthy _); cbv zeta; cbn [fst].
    + destruct (IH (Datatypes.S i0)
                  (_store_credential session c (strip (values i0)) s).1 k Hk Hv)
        as [r Hr].
      exists r. rewrite !elem_of_cons, elem_of_app. auto.
    + destruct (IH (Datatypes.S i0) s k Hk Hv) as [r Hr].
      exists r. rewrite elem_of_cons. auto.
Qed.

(** The store events, in order, are those of the entries whose
    input is not blank: one each. *)
Lemma store_indices i0 creds s :
  omap store_index (entries_events session values i0 creds s).1
  = filter (λ i, strip (values i) ≠ []) (seq i0 (length creds)).
Proof.
  revert i0 s. induction creds as [|c rest IH]; intros i0 s; [done|].
  rewrite entries_events_cons. cbn [length seq]. rewrite filter_cons.
  destruct (truthy (strip (values i0))) eqn:Hv; cbv zeta; cbn [fst].
  - rewrite decide_True by (by apply truthy_true).
    cbn [omap list_omap store_index]. f_equal.
    rewrite omap_app, IH.
    by destruct (_store_credential _ _ _ _).2.
  - rewrite decide_False by (intros H; by apply H, truthy_nil).
    cbn [omap list_omap store_index]. apply IH.
Qed.

(** The loop reports each failed store, and nothing else. *)
Lemma loop_reports i0 creds s :
  reports (entries_events session values i0 creds s).1
  = report_of <$> filter is_failed (entries_events session values i0 creds s).1.
Proof.
  revert i0 s. induction creds as [|c rest IH]; intros i0 s; [done|].
  rewrite entries_events_cons.
  destruct (truthy (strip (values i0))) eqn:Hv; cbv zeta; cbn [fst].
  - specialize (IH (Datatypes.S i0)
                  (_store_credential session c (strip (values i0)) s).1).
    unfold reports in *.
    destruct (_store_credential _ _ _ _).2 as [e|]; cbn [app];
      rewrite !filter_bool_cons; cbn [is_report is_failed error_report].
    + rewrite fmap_cons. cbn [report_of]. by f_equal.
    + done.
  - unfold reports. rewrite !filter_bool_cons. cbn [is_report is_failed].
    apply IH.
Qed.

Lemma entries_events_app i0 l1 l2 s :
  entries_events session values i0 (l1 ++ l2) s
  = let r1 := entries_events session values i0 l1 s in
    let r2 := entries_events session values (i0 + length l1) l2 r1.2 in
    (r1.1 ++ r2.1, r2.2).
Proof.
  revert i0 s. induction l1 as [|c l1 IH]; intros i0 s.
  - cbn [app length entries_events fst snd]. rewrite Nat.add_0_r.
    by destruct (entries_events _ _ _ _ _).
  - rewrite <-app_comm_cons, !entries_events_cons. cbn [length].
    replace (i0 + Datatypes.S (length l1))%nat
      with (Datatypes.S i0 + length l1)%nat by lia.
    destruct (truthy _); cbv zeta; rewrite IH; cbv zeta; cbn [fst snd].
    + f_equal. cbn [app]. do 2 f_equal. by rewrite <-app_assoc.
    + done.
Qed.

(** Blank inputs are read and nothing else happens. *)
Lemma blank_entries i0 creds s :
  (∀ k, (k < length creds)%nat → strip (values (i0 + k)%nat) = []) →
  entries_events session values i0 creds s
  = (ReadInput <$> seq i0 (length creds), s).
Proof.
  revert i0. induction creds as [|c rest IH]; intros i0 Hblank; [done|].
  rewrite entries_events_cons.
  assert (truthy (strip (values i0)) = false) as ->.
  { apply truthy_nil. rewrite <-(Nat.add_0_r i0). apply Hblank. cbn. lia. }
  cbv zeta. rewrite IH; [done|].
  intros k Hk. replace (Datatypes.S i0 + k)%nat with (i0 + Datatypes.S k)%nat by lia.
  apply Hblank. cbn. lia.
Qed.

(** The loop neither ensures the key nor dismisses the screen. *)
Lemma loop_events_kind i0 creds s e :
  e ∈ (entries_events session values i0 creds s).1 →
  e ≠ EnsureKey ∧ ∀ r, e ≠ Dismiss r.
Proof.
  revert i0 s. induction creds as [|c rest IH]; intros i0 s.
  { cbn. by intros ?%elem_of_nil. }
  rewrite entries_events_cons.
  destruct (truthy _); cbv zeta; cbn [fst].
  - rewrite !elem_of_cons, elem_of_app. intros [->|[->|[Hin|Hin]]]; [done..| |by eapply IH].
    destruct (_store_credential _ _ _ _).2; [|by apply elem_of_nil in Hin].
    by apply list_elem_of_singleton in Hin as ->.
  - rewrite elem_of_cons. intros [->|Hin]; [done|by eapply IH].
Qed.

End loop.

(** *** Reading a trace *)

Lemma filter_read_inputs (f : event → bool) l :
  (∀ i, f (ReadInput i) = false) → filter f (ReadInput <$> l) = [].
Proof.
  intros Hf. induction l as [|i l IH]; [done|].
  rewrite fmap_cons, filter_bool_cons, Hf. apply IH.
Qed.

Lemma phase_of_snoc tr e : phase_of (tr ++ [e]) = phase_after (phase_of tr) e.
Proof. unfold phase_of. by rewrite foldl_app. Qed.

Lemma phase_of_undismissed tr :
  (∀ e, e ∈ tr → ∀ r, e ≠ Dismiss r) → phase_of tr = Collecting.
Proof.
  induction tr as [|e tr IH] using rev_ind; [done|].
  intros Hno. rewrite phase_of_snoc, IH.
  - assert (∀ r, e ≠ Dismiss r) as He.
    { apply Hno, elem_of_app. right. by apply list_elem_of_singleton. }
    destruct e as [| | | |r]; try done. by destruct (He r).
  - intros e' He'. apply Hno, elem_of_app. by left.
Qed.

Lemma closing_cases n :
  ((0 < n)%nat ∧ closing n = Dismiss (Some true))
  ∨ (n = 0%nat ∧ closing n = Notify (u "No credentials entered") warning (Some 3)).
Proof. destruct n; [by right|by left; split; [lia|]]. Qed.

Lemma save_trace {S} (session : CredentialSetupSession S) s creds values :
  (_ensure_credential_key session s).2 = None →
  let run := entries_events session values 0 creds
               (_ensure_credential_key session s).1 in
  _save_credentials session (init s creds values)
  = (inr (),
     {| _session := run.2; _missing := creds; inputs := values;
        trace := EnsureKey :: run.1 ++ [closing (configured_count run.1)] |}).
Proof. intros Hens. rewrite save_credentials_run. by rewrite Hens. Qed.

Lemma closing_is_report n : is_report (closing n) = true.
Proof. by destruct (closing_cases n) as [[_ ->]|[_ ->]]. Qed.

Lemma closing_is_no_store n : is_store (closing n) = false.
Proof. by destruct (closing_cases n) as [[_ ->]|[_ ->]]. Qed.

Lemma closing_is_not_stored n : is_stored (closing n) = false.
Proof. by destruct (closing_cases n) as [[_ ->]|[_ ->]]. Qed.

Lemma closing_is_not_failed n : is_failed (closing n) = false.
Proof. by destruct (closing_cases n) as [[_ ->]|[_ ->]]. Qed.

(** Filtering the trace of a save by a predicate that holds neither of
    [EnsureKey] nor of the closing event. *)
Lemma filter_save_trace (f : event → bool) evs n :
  f EnsureKey = false → f (closing n) = false →
  filter f (EnsureKey :: evs ++ [closing n]) = filter f evs.
Proof.
  intros H1 H2. rewrite filter_bool_cons, H1, filter_app.
  rewrite filter_bool_cons, H2. cbn. by rewrite app_nil_r.
Qed.

Lemma reports_save_trace evs n :
  reports (EnsureKey :: evs ++ [closing n]) = reports evs ++ [closing n].
Proof.
  unfold reports. rewrite filter_bool_cons. cbn [is_report].
  rewrite filter_app, filter_bool_cons. by rewrite closing_is_report.
Qed.

(** *** Failing stores *)

(** C7, as the specification words it, fails: with nothing failed,
    one entry stored and two entries stored are reported alike, so
    that no count can be read off the reports. *)
Lemma counts_are_not_reported :
  ¬ summary_is_reported (Session.session []) Session.fresh Example.entries.
Proof.
  intros [summary H].
  pose proof (H Example.first_only) as H1.
  pose proof (H Example.both) as H2.
  clear H. vm_compute in H1, H2. rewrite H1 in H2. discriminate H2.
Qed.

(** C7, as the code has it.  When the key has been ensured, a save
    never raises, whatever the stores do: every entry whose input is
    not blank is handed to the store, each failed store is reported by
    its own error notification, and the save ends by dismissing the
    screen with [True] when at least one entry was stored and with the
    warning "No credentials entered" otherwise.  Nothing else is
    reported. *)
Theorem store_failure_is_not_fatal {S} (session : CredentialSetupSession S)
    s creds values :
  (_ensure_credential_key session s).2 = None →
  let run := _save_credentials session (init s creds values) in
  let tr := trace run.2 in
  run.1 = inr ()
  ∧ (∀ i cred, creds !! i = Some cred → strip (values i) ≠ [] →
       ∃ raised, StoreCredential i cred (strip (values i)) raised ∈ tr)
  ∧ reports tr
    = (report_of <$> filter is_failed tr) ++ [closing (configured_count tr)].
Proof.
  intros Hens run tr. subst tr run. rewrite (save_trace _ _ _ _ Hens).
  cbv zeta. cbn [fst snd trace]. split_and!.
  - done.
  - intros i cred Hi Hv.
    destruct (nonblank_entry_is_stored session values 0 creds
                (_ensure_credential_key session s).1 i cred Hi Hv) as [r Hr].
    exists r. apply elem_of_cons. right. apply elem_of_app. by left.
  - rewrite reports_save_trace, loop_reports. unfold configured_count.
    rewrite !filter_save_trace;
      auto using closing_is_not_stored, closing_is_not_failed.
Qed.

Lemma store_failure_is_not_fatal_witness :
  let run := _save_credentials (Session.session [u "FOO_KEY"])
               (init Session.fresh Example.entries Example.both) in
  let tr := trace run.2 in
  run.1 = inr ()
  ∧ (∀ i cred, Example.entries !! i = Some cred → strip (Example.both i) ≠ [] →
       ∃ raised, StoreCredential i cred (strip (Example.both i)) raised ∈ tr)
  ∧ reports tr
    = (report_of <$> filter is_failed tr) ++ [closing (configured_count tr)].
Proof. apply store_failure_is_not_fatal. reflexivity. Defined.

(** *** Blank and single submissions *)

(** C8, as the specification words it, fails: after a submission with
    every input blank the screen is still open. *)
Lemma blank_submission_is_not_cancelled :
  ¬ blank_submission_cancels (Session.session []) Session.fresh
      Example.entries Example.all_blank.
Proof.
  intros H. destruct H as [_ H].
  - intros i. by destruct i as [|[|[|i]]].
  - vm_compute in H. discriminate H.
Qed.

Lemma phase_of_save_trace {S} (session : CredentialSetupSession S)
    values creds s n :
  phase_of (EnsureKey :: (entries_events session values 0 creds s).1 ++ [closing n])
  = phase_after Collecting (closing n).
Proof.
  rewrite app_comm_cons, phase_of_snoc. f_equal.
  apply phase_of_undismissed. intros e [->|He]%elem_of_cons; [done|].
  by eapply loop_events_kind.
Qed.

(** C8, as the code has it.  When the key has been ensured: a
    submission with every input blank makes no store write, leaves the
    screen open, and is answered by the warning "No credentials
    entered" alone; a submission with exactly one input that is not
    blank, whose store succeeds, makes that one store write and
    dismisses the screen with [True], and nothing else is reported. *)
Theorem blank_and_single_submission {S} (session : CredentialSetupSession S)
    s creds values :
  (_ensure_credential_key session s).2 = None →
  let tr := trace (_save_credentials session (init s creds values)).2 in
  ((∀ i, (i < length creds)%nat → strip (values i) = []) →
     store_writes tr = []
     ∧ phase_of tr = Collecting
     ∧ reports tr = [Notify (u "No credentials entered") warning (Some 3)])
  ∧ (∀ k cred,
       creds !! k = Some cred →
       strip (values k) ≠ [] →
       (∀ i, (i < length creds)%nat → i ≠ k → strip (values i) = []) →
       (_store_credential session cred (strip (values k))
          (_ensure_credential_key session s).1).2 = None →
       store_writes tr = [StoreCredential k cred (strip (values k)) None]
       ∧ phase_of tr = Saved
       ∧ reports tr = [Dismiss (Some true)]).
Proof.
  intros Hens tr. subst tr. rewrite (save_trace _ _ _ _ Hens).
  cbv zeta. cbn [snd trace]. set (s1 := (_ensure_credential_key session s).1).
  split.
  - intros Hblank. rewrite phase_of_save_trace, reports_save_trace.
    unfold store_writes.
    rewrite filter_save_trace by auto using closing_is_no_store.
    rewrite blank_entries by done. cbn [fst].
    unfold reports, configured_count. rewrite !filter_read_inputs by done.
    done.
  - intros k cred Hk Hv Hothers Hstore.
    pose proof (lookup_lt_Some _ _ _ Hk) as Hlt.
    rewrite phase_of_save_trace, reports_save_trace. unfold store_writes.
    rewrite filter_save_trace by auto using closing_is_no_store.
    rewrite <-(take_drop_middle creds k cred Hk).
    rewrite entries_events_app. cbv zeta.
    rewrite length_take, Nat.min_l, Nat.add_0_l by lia.
    rewrite (blank_entries session values 0 (take k creds)).
    2:{ intros i Hi. rewrite length_take in Hi. apply Hothers; lia. }
    cbn [fst snd]. rewrite entries_events_cons.
    apply truthy_true in Hv as ->. cbv zeta. rewrite Hstore.
    rewrite (blank_entries session values (Datatypes.S k)).
    2:{ intros i Hi. rewrite length_drop in Hi. apply Hothers; lia. }
    cbn [fst snd app].
    unfold reports, configured_count.
    rewrite !filter_app, !filter_bool_cons. cbn [is_store is_report is_stored].
    rewrite !filter_read_inputs by done. cbn [app length].
    done.
Qed.

Lemma blank_and_single_submission_witness :
  (let tr := trace (_save_credentials (Session.session [])
                      (init Session.fresh Example.entries Example.all_blank)).2 in
   store_writes tr = []
   ∧ phase_of tr = Collecting
   ∧ reports tr = [Notify (u "No credentials entered") warning (Some 3)])
  ∧ (let tr := trace (_save_credentials (Session.session [])
                        (init Session.fresh Example.entries Example.first_only)).2 in
     store_writes tr = [StoreCredential 0 Example.foo_entry (u "sk-foo") None]
     ∧ phase_of tr = Saved
     ∧ reports tr = [Dismiss (Some true)]).
Proof.
  split.
  - apply (blank_and_single_submission (Session.session []) Session.fresh
             Example.entries Example.all_blank eq_refl).
    intros i Hi. destruct i as [|[|i]]; [reflexivity..|]. cbn in Hi. lia.
  - apply (proj2 (blank_and_single_submission (Session.session []) Session.fresh
             Example.entries Example.first_only eq_refl) 0%nat Example.foo_entry).
    + reflexivity.
    + vm_compute. discriminate.
    + intros i Hi Hne. destruct i as [|[|i]]; [done|reflexivity|]. cbn in Hi. lia.
    + reflexivity.
Defined.

(** *** Stripping and skipping *)

Lemma stored_among_stores (l : list event) :
  (length (filter is_stored l) ≤ length (omap store_index l))%nat.
Proof.
  induction l as [|e l IH]; [done|].
  rewrite filter_bool_cons. destruct e as [| |i c v [x|]| |]; cbn; lia.
Qed.

Lemma store_events_of_save {S} (session : CredentialSetupSession S)
    s creds values e :
  is_store e = true →
  e ∈ trace (_save_credentials session (init s creds values)).2 →
  (_ensure_credential_key session s).2 = None
  ∧ e ∈ (entries_events session values 0 creds
           (_ensure_credential_key session s).1).1.
Proof.
  intros He. rewrite save_credentials_run.
  destruct (_ensure_credential_key session s).2 as [x|]; cbv zeta; cbn [snd trace].
  - intros ->%list_elem_of_singleton. done.
  - rewrite elem_of_cons, elem_of_app.
    intros [->|[?| ->%list_elem_of_singleton]]; [done|done|].
    by rewrite closing_is_no_store in He.
Qed.

Lemma stored_exists (l : list event) :
  (0 < length (filter is_stored l))%nat
  ↔ ∃ i cred v, StoreCredential i cred v None ∈ l.
Proof.
  induction l as [|e l IH].
  - split; [cbn; lia|]. by intros (?&?&?&?%elem_of_nil).
  - rewrite filter_bool_cons. split.
    + destruct e as [| |i c v [x|]| |]; cbn [is_stored].
      1,2,3,5,6: intros (i' & c' & v' & Hin)%IH; exists i', c', v'; by right.
      intros _. exists i, c, v. by left.
    + intros (i & c & v & [<-|Hin]%elem_of_cons); [cbn; lia|].
      assert (0 < length (filter is_stored l))%nat by (apply IH; eauto).
      destruct (is_stored e); cbn [length]; lia.
Qed.

(** C9.  What the operator typed is stripped of the whitespace around
    it before anything else is done with it: the value of a store
    write is the stripped input of its entry, and it is not empty.  An
    entry whose input is empty once stripped is skipped: the loop does
    nothing for it but read the input, it has no store write, and the
    counter [configured] stays as it is.  The counter goes up by one
    exactly for a store that succeeds, so that after the loop it is the
    number of successful stores, and the screen is dismissed with
    [True] exactly when there is one; with every input blank it is
    not. *)
Theorem submitted_values_are_stripped {S} (session : CredentialSetupSession S)
    s creds values :
  let tr := trace (_save_credentials session (init s creds values)).2 in
  (∀ raw, ∃ before after,
      raw = before ++ strip raw ++ after
      ∧ Forall (λ c, isspace c = true) before
      ∧ Forall (λ c, isspace c = true) after
      ∧ (∀ c, head (strip raw) = Some c → isspace c = false)
      ∧ (∀ c, last (strip raw) = Some c → isspace c = false))
  ∧ (∀ i cred v raised,
       StoreCredential i cred v raised ∈ tr →
       creds !! i = Some cred ∧ v = strip (values i) ∧ v ≠ [])
  ∧ (∀ i, strip (values i) = [] →
       ∀ cred v raised, StoreCredential i cred v raised ∉ tr)
  ∧ (configured_count tr
     ≤ length (filter (λ i, strip (values i) ≠ []) (seq 0 (length creds))))%nat
  ∧ (∀ configured i cred (sc : screen S),
       strip (inputs sc i) = [] →
       save_entry session configured i cred sc
       = (inr configured,
          {| _session := _session sc; _missing := _missing sc;
             inputs := inputs sc; trace := trace sc ++ [ReadInput i] |}))
  ∧ (∀ configured i cred (sc : screen S),
       strip (inputs sc i) ≠ [] →
       (save_entry session configured i cred sc).1
       = inr (match (_store_credential session cred (strip (inputs sc i))
                       (_session sc)).2 with
              | None => (configured + 1)%nat
              | Some _ => configured
              end))
  ∧ (∀ sc : screen S,
       let after := for_enumerate (save_entry session) 0 (_missing sc) 0%nat sc in
       after.1 = inr (configured_count (drop (length (trace sc)) (trace after.2))))
  ∧ (Dismiss (Some true) ∈ tr ↔ ∃ i cred v, StoreCredential i cred v None ∈ tr)
  ∧ ((∀ i, (i < length creds)%nat → strip (values i) = []) →
       (Dismiss (Some true) ∉ tr) ∧ configured_count tr = 0%nat).
Proof.
  intros tr.
  assert (∀ i cred v raised,
            StoreCredential i cred v raised ∈ tr →
            creds !! i = Some cred ∧ v = strip (values i) ∧ v ≠ []) as Horigin.
  { intros i cred v raised Hin.
    apply store_events_of_save in Hin as [_ Hin]; [|done].
    apply store_event_origin in Hin as (_ & Hl & ? & ?).
    by rewrite Nat.sub_0_r in Hl. }
  assert (Dismiss (Some true) ∈ tr
          ↔ ∃ i cred v, StoreCredential i cred v None ∈ tr) as Hdismiss.
  { subst tr. rewrite save_credentials_run.
    destruct (_ensure_credential_key session s).2 as [x|]; cbv zeta; cbn [snd trace].
    { split; [by intros [=]%list_elem_of_singleton|].
      by intros (?&?&?&[=]%list_elem_of_singleton). }
    set (evs := (entries_events session values 0 creds
                   (_ensure_credential_key session s).1).1).
    pose proof (stored_exists evs) as Hstored.
    fold (configured_count evs) in Hstored.
    split.
    - rewrite elem_of_cons, elem_of_app.
      intros [?|[Hin|Hin%list_elem_of_singleton]]; [done| |].
      + unfold evs in Hin. apply loop_events_kind in Hin as [_ Hin].
        by destruct (Hin (Some true)).
      + destruct (closing_cases (configured_count evs)) as [[Hn _]|[_ Hc]];
          [|by rewrite Hc in Hin].
        apply Hstored in Hn as (i & c & v & Hi). exists i, c, v.
        apply elem_of_cons. right. apply elem_of_app. by left.
    - intros (i & c & v & Hin). apply elem_of_cons. right. apply elem_of_app. right.
      apply elem_of_cons in Hin as [?|Hin]; [done|].
      apply elem_of_app in Hin as [Hin|Hin%list_elem_of_singleton].
      + assert (0 < configured_count evs)%nat as Hn by (apply Hstored; eauto).
        destruct (closing_cases (configured_count evs)) as [[_ ->]|[? _]];
          [by apply list_elem_of_singleton|lia].
      + by destruct (closing_cases (configured_count evs)) as [[_ Hc]|[_ Hc]];
          rewrite Hc in Hin. }
  assert (configured_count tr
          ≤ length (filter (λ i, strip (values i) ≠ []) (seq 0 (length creds))))%nat
    as Hbound.
  { subst tr. rewrite save_credentials_run.
    destruct (_ensure_credential_key session s).2 as [x|]; cbv zeta; cbn [snd trace].
    + change (configured_count [EnsureKey]) with 0%nat. lia.
    + unfold configured_count.
      rewrite filter_save_trace by auto using closing_is_not_stored.
      rewrite <-(store_indices session values 0 creds
                   (_ensure_credential_key session s).1).
      apply stored_among_stores. }
  split; [apply strip_spec|]. split; [exact Horigin|].
  split; [|split; [exact Hbound|]].
  { intros i Hblank cred v raised Hin.
    apply Horigin in Hin as (_ & -> & Hv). done. }
  split; [|split; [|split; [|split; [exact Hdismiss|]]]].
  - intros configured i cred sc Hblank. rewrite save_entry_run. cbv zeta.
    by rewrite Hblank.
  - intros configured i cred sc Hv. rewrite save_entry_run. cbv zeta.
    by apply truthy_true in Hv as ->.
  - intros sc after. subst after. rewrite for_enumerate_save_entry.
    cbn [fst snd trace]. by rewrite drop_app_length.
  - intros Hblank.
    assert (∀ i cred v raised, StoreCredential i cred v raised ∉ tr) as Hnone.
    { intros i cred v raised Hin.
      destruct (Horigin _ _ _ _ Hin) as (Hi & -> & Hv).
      apply Hv, Hblank. by eapply lookup_lt_Some. }
    split.
    + intros (i & c & v & Hin)%Hdismiss. by apply Hnone in Hin.
    + destruct (configured_count tr) as [|n] eqn:Hn; [done|].
      assert (0 < length (filter is_stored tr))%nat as Hpos
        by (unfold configured_count in Hn; lia).
      apply stored_exists in Hpos as (i & c & v & Hin). by apply Hnone in Hin.
Qed.

Lemma submitted_values_are_stripped_witness :
  let tr := trace (_save_credentials (Session.session [])
                     (init Session.fresh Example.entries Example.first_only)).2 in
  let blank := trace (_save_credentials (Session.session [])
                        (init Session.fresh Example.entries Example.all_blank)).2 in
  StoreCredential 0 Example.foo_entry (u "sk-foo") None ∈ tr
  ∧ Example.first_only 0%nat = u " sk-foo "
  ∧ (∀ cred v raised, StoreCredential 1 cred v raised ∉ tr)
  ∧ Dismiss (Some true) ∈ tr
  ∧ ((Dismiss (Some true) ∉ blank) ∧ configured_count blank = 0%nat).
Proof.
  cbv zeta.
  assert (StoreCredential 0 Example.foo_entry (u "sk-foo") None
          ∈ trace (_save_credentials (Session.session [])
                     (init Session.fresh Example.entries Example.first_only)).2)
    as Hstored by (apply (bool_decide_unpack _); vm_compute; exact I).
  pose proof (submitted_values_are_stripped (Session.session []) Session.fresh
                Example.entries Example.first_only)
    as (_ & _ & Hskip & _ & _ & _ & _ & Hdismiss & _).
  pose proof (submitted_values_are_stripped (Session.session []) Session.fresh
                Example.entries Example.all_blank)
    as (_ & _ & _ & _ & _ & _ & _ & _ & Hblank).
  split; [exact Hstored|]. split; [reflexivity|].
  split; [apply (Hskip 1%nat); reflexivity|].
  split; [apply Hdismiss; eauto|].
  apply Hblank. intros i Hi. destruct i as [|[|i]]; [reflexivity..|].
  cbn in Hi. lia.
Defined.

(** *** Save, skip and escape *)

(** C10.  Pressing Save ensures the master key first, and once:
    before any input is read, whatever the inputs hold.  In
    particular, when every input is blank the session is left as
    ensuring the key left it, though nothing is stored.  Skip and
    Escape dismiss the screen with [None] and do nothing else: the
    session is as it was. *)
Theorem save_ensures_key_first {S} (session : CredentialSetupSession S)
    s creds values :
  let saved := on_button_pressed session (u "btn-save") (init s creds values) in
  let skipped := on_button_pressed session (u "btn-skip") (init s creds values) in
  let escaped := action_dismiss_setup (init s creds values) in
  (∃ rest, trace saved.2 = EnsureKey :: rest ∧ EnsureKey ∉ rest)
  ∧ ((∀ i, (i < length creds)%nat → strip (values i) = []) →
       _session saved.2 = (_ensure_credential_key session s).1
       ∧ store_writes (trace saved.2) = [])
  ∧ skipped
    = (inr (), {| _session := s; _missing := creds; inputs := values;
                  trace := [Dismiss None] |})
  ∧ escaped = skipped.
Proof.
  intros saved skipped escaped. subst saved skipped escaped.
  unfold on_button_pressed. rewrite decide_True by done.
  rewrite decide_False by (by vm_compute). rewrite decide_True by done.
  rewrite save_credentials_run. split_and!; [..|done|done].
  - destruct (_ensure_credential_key session s).2 as [x|]; cbv zeta; cbn [snd trace].
    + exists []. split; [done|]. by intros ?%elem_of_nil.
    + eexists. split; [done|]. rewrite elem_of_app.
      intros [Hin|Hin%list_elem_of_singleton].
      * by apply loop_events_kind in Hin as [? _].
      * by destruct (closing_cases
          (configured_count (entries_events session values 0 creds
             (_ensure_credential_key session s).1).1)) as [[_ Hc]|[_ Hc]];
          rewrite Hc in Hin.
  - intros Hblank.
    destruct (_ensure_credential_key session s).2 as [x|]; cbv zeta;
      cbn [snd trace _session]; [done|].
    rewrite blank_entries by done. cbn [fst snd]. split; [done|].
    unfold store_writes.
    rewrite filter_save_trace by auto using closing_is_no_store.
    by rewrite filter_read_inputs.
Qed.

Lemma save_ensures_key_first_witness :
  let saved := on_button_pressed (Session.session []) (u "btn-save")
                 (init Session.fresh Example.entries Example.all_blank) in
  Session.master_key (_session saved.2) = Some (u "generated-key")
  ∧ Session.store (_session saved.2) = ∅
  ∧ store_writes (trace saved.2) = [].
Proof.
  destruct (proj1 (proj2 (save_ensures_key_first (Session.session [])
              Session.fresh Example.entries Example.all_blank))) as [Hs Hw].
  - intros i Hi. destruct i as [|[|i]]; [reflexivity..|]. cbn in Hi. lia.
  - cbv zeta. rewrite Hs, Hw. split_and!; reflexivity.
Defined.

(** *** The example screen *)

Example strip_examples :
  strip (u "  sk-foo ") = u "sk-foo"
  ∧ strip (u " a b ") = u "a b"
  ∧ strip [9; 10; 160; 8195; 12288] = []
  ∧ strip [8203; 32] = [8203].
Proof. split_and!; reflexivity. Qed.

(** One store fails, the other succeeds: the failure is notified, the
    second entry is still stored, and the screen is dismissed with
    [True]. *)
Example example_partial_save :
  let run := _save_credentials (Session.session [u "FOO_KEY"])
               (init Session.fresh Example.entries Example.both) in
  run.1 = inr ()
  ∧ trace run.2
    = [EnsureKey;
       ReadInput 0;
       StoreCredential 0 Example.foo_entry (u "sk-foo") (Some (u "store is read-only"));
       Notify (u "Error storing FOO_KEY: store is read-only") error None;
       ReadInput 1;
       StoreCredential 1 Example.llm_entry (u "sk-ant") None;
       Dismiss (Some true)]
  ∧ Session.store (_session run.2) = {[ u "ANTHROPIC_API_KEY" := u "sk-ant" ]}.
Proof. vm_compute. split_and!; reflexivity. Qed.

(** The only entry typed fails to store: the screen stays open. *)
Example example_failed_save :
  let run := _save_credentials (Session.session [u "FOO_KEY"])
               (init Session.fresh Example.entries Example.first_only) in
  reports (trace run.2)
  = [Notify (u "Error storing FOO_KEY: store is read-only") error None;
     Notify (u "No credentials entered") warning (Some 3)]
  ∧ phase_of (trace run.2) = Collecting.
Proof. vm_compute. split_and!; reflexivity. Qed.

Example example_escape :
  let run := action_dismiss_setup
               (init Session.fresh Example.entries Example.both) in
  trace run.2 = [Dismiss None] ∧ phase_of (trace run.2) = Cancelled
  ∧ _session run.2 = Session.fresh.
Proof. split_and!; reflexivity. Qed.

(** *** Further properties of the screen *)

Import Reading.

(** A save from any screen, not only from one just built. *)
Lemma save_credentials_from {S} (session : CredentialSetupSession S) (sc : screen S) :
  _save_credentials session sc
  = match (_ensure_credential_key session (_session sc)).2 with
    | Some e =>
        (inl e,
         {| _session := (_ensure_credential_key session (_session sc)).1;
            _missing := _missing sc; inputs := inputs sc;
            trace := trace sc ++ [EnsureKey] |})
    | None =>
        let run := entries_events session (inputs sc) 0 (_missing sc)
                     (_ensure_credential_key session (_session sc)).1 in
        (inr (),
         {| _session := run.2; _missing := _missing sc; inputs := inputs sc;
            trace := trace sc
                     ++ EnsureKey :: run.1 ++ [closing (configured_count run.1)] |})
    end.
Proof.
  unfold _save_credentials, mbind, M_bind, bind at 1.
  unfold ensure_credential_key, emit. cbn [_session _missing inputs trace].
  destruct (_ensure_credential_key session (_session sc)) as [s1 [e|]];
    cbn [fst snd]; [done|].
  unfold bind at 1, missing at 1. cbn [_missing]. unfold bind.
  rewrite for_enumerate_save_entry. cbn [_session _missing inputs trace].
  cbv zeta. unfold closing, dismiss, notify, emit.
  cbn [_session _missing inputs trace Nat.add].
  destruct (0 <? _)%nat; cbn [_session _missing inputs trace];
    by rewrite <-!app_assoc.
Qed.

(** X6.  When ensuring the master key raises, the save raises the same
    exception at once: no input is read, nothing is stored, nothing is
    notified, and the screen is not dismissed. *)
Theorem key_failure_aborts_save {S} (session : CredentialSetupSession S)
    s creds values e :
  (_ensure_credential_key session s).2 = Some e →
  let run := on_button_pressed session (u "btn-save") (init s creds values) in
  run.1 = inl e
  ∧ trace run.2 = [EnsureKey]
  ∧ _session run.2 = (_ensure_credential_key session s).1
  ∧ store_writes (trace run.2) = []
  ∧ reports (trace run.2) = []
  ∧ phase_of (trace run.2) = Collecting.
Proof.
  intros Hens run. subst run. unfold on_button_pressed.
  rewrite decide_True by done. rewrite save_credentials_run, Hens.
  by split_and!.
Qed.

Lemma key_failure_aborts_save_witness :
  let run := on_button_pressed MoreExamples.keyless (u "btn-save")
               (init Session.fresh Example.entries Example.both) in
  run.1 = inl (u "no key directory")
  ∧ trace run.2 = [EnsureKey]
  ∧ _session run.2 = Session.fresh
  ∧ store_writes (trace run.2) = []
  ∧ reports (trace run.2) = []
  ∧ phase_of (trace run.2) = Collecting.
Proof. apply (key_failure_aborts_save MoreExamples.keyless). reflexivity. Defined.

Section more_loop.
Context {S : Type} (session : CredentialSetupSession S) (values : nat → str).

Lemma read_indices i0 creds s :
  omap read_index (entries_events session values i0 creds s).1
  = seq i0 (length creds).
Proof.
  revert i0 s. induction creds as [|c rest IH]; intros i0 s; [done|].
  rewrite entries_events_cons. cbn [length seq].
  destruct (truthy _); cbv zeta; cbn [fst omap list_omap read_index]; f_equal.
  - rewrite omap_app, IH. by destruct (_store_credential _ _ _ _).2.
  - apply IH.
Qed.

Lemma store_calls i0 creds s :
  omap store_call (entries_events session values i0 creds s).1
  = submitted values i0 creds
  ∧ (entries_events session values i0 creds s).2
    = after_stores session (submitted values i0 creds) s.
Proof.
  revert i0 s. induction creds as [|c rest IH]; intros i0 s; [done|].
  rewrite entries_events_cons. cbn [submitted].
  destruct (truthy _); cbv zeta; cbn [fst snd omap list_omap store_call app].
  - destruct (IH (Datatypes.S i0)
                (_store_credential session c (strip (values i0)) s).1) as [H1 H2].
    rewrite omap_app, H1, H2. split; [|done].
    by destruct (_store_credential _ _ _ _).2.
  - apply IH.
Qed.

Lemma failed_stores i0 creds s :
  (∀ cred v s, (_store_credential session cred v s).2 ≠ None) →
  configured_count (entries_events session values i0 creds s).1 = 0%nat
  ∧ failed_count (entries_events session values i0 creds s).1
    = length (submitted values i0 creds).
Proof.
  intros Hfail. revert i0 s. induction creds as [|c rest IH]; intros i0 s; [done|].
  rewrite entries_events_cons. cbn [submitted].
  destruct (truthy _); cbv zeta; cbn [fst app length]; [|apply IH].
  destruct (IH (Datatypes.S i0)
              (_store_credential session c (strip (values i0)) s).1) as [H1 H2].
  pose proof (Hfail c (strip (values i0)) s) as Hc.
  unfold configured_count, failed_count in *.
  destruct (_store_credential _ _ _ _).2 as [e|]; [|done].
  rewrite !filter_bool_cons. cbn [is_stored is_failed app error_report].
  rewrite !filter_bool_cons. unfold error_report. cbn [is_stored is_failed length].
  by rewrite H1, H2.
Qed.

Lemma entries_events_ext (values' : nat → str) i0 creds s :
  (∀ k, (k < length creds)%nat →
        strip (values (i0 + k)%nat) = strip (values' (i0 + k)%nat)) →
  entries_events session values i0 creds s
  = entries_events session values' i0 creds s.
Proof.
  revert i0 s. induction creds as [|c rest IH]; intros i0 s Heq; [done|].
  rewrite !entries_events_cons.
  assert (strip (values i0) = strip (values' i0)) as <-.
  { rewrite <-(Nat.add_0_r i0). apply Heq. cbn. lia. }
  assert (∀ s', entries_events session values (Datatypes.S i0) rest s'
                = entries_events session values' (Datatypes.S i0) rest s') as Hrest.
  { intros s'. apply IH. intros k Hk.
    replace (Datatypes.S i0 + k)%nat with (i0 + Datatypes.S k)%nat by lia.
    apply Heq. cbn. lia. }
  cbv zeta. by rewrite !Hrest.
Qed.

End more_loop.

Lemma omap_save_trace {A} (f : event → option A) evs n :
  f EnsureKey = None → f (closing n) = None →
  omap f (EnsureKey :: evs ++ [closing n]) = omap f evs.
Proof.
  intros H1 H2. cbn [omap list_omap]. rewrite H1, omap_app.
  cbn [omap list_omap]. by rewrite H2, app_nil_r.
Qed.

Lemma closing_read n : read_index (closing n) = None.
Proof. by destruct (closing_cases n) as [[_ ->]|[_ ->]]. Qed.

Lemma closing_store_call n : store_call (closing n) = None.
Proof. by destruct (closing_cases n) as [[_ ->]|[_ ->]]. Qed.

Lemma closing_store_index n : store_index (closing n) = None.
Proof. by destruct (closing_cases n) as [[_ ->]|[_ ->]]. Qed.

(** X7.  When the key has been ensured, a save reads every input once,
    in the order of the entries, and calls the store once for each entry
    whose input is not blank, in that order, with the stripped input. *)
Theorem inputs_are_read_and_stored_in_order {S}
    (session : CredentialSetupSession S) s creds values :
  (_ensure_credential_key session s).2 = None →
  let tr := trace (_save_credentials session (init s creds values)).2 in
  omap read_index tr = seq 0 (length creds)
  ∧ omap store_index tr
    = filter (λ i, strip (values i) ≠ []) (seq 0 (length creds))
  ∧ omap store_call tr = submitted values 0 creds.
Proof.
  intros Hens tr. subst tr. rewrite (save_trace _ _ _ _ Hens).
  cbv zeta. cbn [snd trace].
  rewrite !omap_save_trace
    by auto using closing_read, closing_store_call, closing_store_index.
  split_and!.
  - apply read_indices.
  - apply store_indices.
  - apply store_calls.
Qed.

Lemma inputs_are_read_and_stored_in_order_witness :
  let tr := trace (_save_credentials (Session.session [u "FOO_KEY"])
                     (init Session.fresh Example.entries Example.both)).2 in
  omap read_index tr = [0; 1]%nat
  ∧ omap store_index tr = [0; 1]%nat
  ∧ omap store_call tr
    = [(Example.foo_entry, u "sk-foo"); (Example.llm_entry, u "sk-ant")].
Proof.
  apply (inputs_are_read_and_stored_in_order (Session.session [u "FOO_KEY"])
           Session.fresh Example.entries Example.both).
  reflexivity.
Defined.

(** X8.  When the key has been ensured, the session a save leaves
    behind is the session after ensuring the key and then storing the
    stripped input of each entry that is not blank, one after the other
    in the order of the entries; blank entries and failed stores do not
    interrupt the sequence. *)
Theorem session_after_save {S} (session : CredentialSetupSession S)
    s creds values :
  (_ensure_credential_key session s).2 = None →
  _session (_save_credentials session (init s creds values)).2
  = after_stores session (submitted values 0 creds)
      (_ensure_credential_key session s).1.
Proof.
  intros Hens. rewrite (save_trace _ _ _ _ Hens). cbv zeta. cbn [snd _session].
  apply store_calls.
Qed.

Lemma session_after_save_witness :
  Session.store
    (_session (_save_credentials (Session.session [])
                 (init Session.fresh Example.entries Example.both)).2)
  = {[ u "FOO_KEY" := u "sk-foo"; u "ANTHROPIC_API_KEY" := u "sk-ant" ]}.
Proof.
  rewrite (session_after_save (Session.session []) Session.fresh
             Example.entries Example.both eq_refl).
  vm_compute. reflexivity.
Defined.

Lemma filter_bool_nil {A} (f : A → bool) l :
  (∀ x, x ∈ l → f x = false) → filter f l = [].
Proof.
  induction l as [|x l IH]; intros Hf; [done|].
  rewrite filter_bool_cons, Hf by (by left). apply IH.
  intros y Hy. apply Hf. by right.
Qed.

Lemma loop_has_no_dismiss {S} (session : CredentialSetupSession S)
    values i0 creds s :
  filter is_dismiss (entries_events session values i0 creds s).1 = [].
Proof.
  apply filter_bool_nil. intros e He.
  apply loop_events_kind in He as [_ He].
  destruct e as [| | | |r]; try done. by destruct (He r).
Qed.

(** X9.  A save never cancels: it dismisses the screen at most once,
    and then with [True]; the screen ends up dismissed exactly when at
    least one store succeeded, and is left open otherwise. *)
Theorem save_never_cancels {S} (session : CredentialSetupSession S)
    s creds values :
  let tr := trace (_save_credentials session (init s creds values)).2 in
  (Dismiss None ∉ tr)
  ∧ (length (filter is_dismiss tr) ≤ 1)%nat
  ∧ (phase_of tr = Saved ↔ (0 < configured_count tr)%nat)
  ∧ (phase_of tr = Collecting ↔ configured_count tr = 0%nat).
Proof.
  intros tr. subst tr. rewrite save_credentials_run.
  destruct (_ensure_credential_key session s).2 as [e|]; cbv zeta; cbn [snd trace].
  { change (configured_count [EnsureKey]) with 0%nat.
    change (phase_of [EnsureKey]) with Collecting.
    change (filter is_dismiss [EnsureKey]) with (@nil event).
    split_and!; [by intros [=]%list_elem_of_singleton|cbn; lia| |done].
    split; [done|lia]. }
  assert (∀ evs n, configured_count (EnsureKey :: evs ++ [closing n])
                   = configured_count evs) as Hcc.
  { intros evs n. unfold configured_count.
    by rewrite filter_save_trace by auto using closing_is_not_stored. }
  rewrite Hcc, phase_of_save_trace, filter_bool_cons. cbn [is_dismiss].
  rewrite filter_app, loop_has_no_dismiss. cbn [app]. clear Hcc.
  set (evs := (entries_events session values 0 creds
                 (_ensure_credential_key session s).1).1).
  destruct (closing_cases (configured_count evs)) as [[Hn ->]|[Hn ->]].
  - split_and!.
    + rewrite elem_of_cons, elem_of_app. intros [?|[Hin|Hin]]; [done| |].
      * unfold evs in Hin. apply loop_events_kind in Hin as [_ Hin].
        by destruct (Hin None).
      * by apply list_elem_of_singleton in Hin.
    + rewrite filter_bool_cons. cbn [is_dismiss]. rewrite filter_nil. cbn [length]. lia.
    + cbn [phase_after]. split; [done|]. done.
    + cbn [phase_after]. split; [done|lia].
  - split_and!.
    + rewrite elem_of_cons, elem_of_app. intros [?|[Hin|Hin]]; [done| |].
      * unfold evs in Hin. apply loop_events_kind in Hin as [_ Hin].
        by destruct (Hin None).
      * by apply list_elem_of_singleton in Hin.
    + rewrite filter_bool_cons. cbn [is_dismiss]. rewrite filter_nil. cbn [length]. lia.
    + cbn [phase_after]. split; [done|lia].
    + cbn [phase_after]. split; done.
Qed.

(** X10.  With a store that takes nothing, a save of inputs that are
    not all blank still ends with the warning "No credentials entered"
    and leaves the screen open: nothing counts as configured, and there
    is one error notification for each entry that is not blank. *)
Theorem save_with_failing_store {S} (session : CredentialSetupSession S)
    s creds values :
  (_ensure_credential_key session s).2 = None →
  (∀ cred v s', (_store_credential session cred v s').2 ≠ None) →
  let tr := trace (_save_credentials session (init s creds values)).2 in
  configured_count tr = 0%nat
  ∧ failed_count tr = length (submitted values 0 creds)
  ∧ length (reports tr) = Datatypes.S (length (submitted values 0 creds))
  ∧ last (reports tr) = Some (Notify (u "No credentials entered") warning (Some 3))
  ∧ phase_of tr = Collecting.
Proof.
  intros Hens Hfail tr. subst tr. rewrite (save_trace _ _ _ _ Hens).
  cbv zeta. cbn [snd trace].
  destruct (failed_stores session values 0 creds
              (_ensure_credential_key session s).1 Hfail) as [Hc Hf].
  rewrite phase_of_save_trace, reports_save_trace, loop_reports.
  unfold configured_count, failed_count in *.
  rewrite !filter_save_trace
    by auto using closing_is_not_stored, closing_is_not_failed.
  rewrite Hc, Hf. split_and!; [done|done| | |done].
  - by rewrite length_app, length_fmap, Hf, Nat.add_1_r.
  - by rewrite last_snoc.
Qed.

Lemma save_with_failing_store_witness :
  let tr := trace (_save_credentials MoreExamples.read_only
                     (init Session.fresh Example.entries Example.both)).2 in
  configured_count tr = 0%nat
  ∧ failed_count tr = 2%nat
  ∧ length (reports tr) = 3%nat
  ∧ last (reports tr) = Some (Notify (u "No credentials entered") warning (Some 3))
  ∧ phase_of tr = Collecting.
Proof.
  apply (save_with_failing_store MoreExamples.read_only Session.fresh
           Example.entries Example.both).
  - reflexivity.
  - intros cred v s'. discriminate.
Defined.

(** X11.  No method of the screen changes the list of missing
    credentials or the values of the inputs, and what was done before
    stays done: this holds for a press of any button and for Escape,
    from any screen.  A button that is neither Save nor Skip changes
    nothing at all. *)
Theorem methods_keep_entries_and_inputs {S} (session : CredentialSetupSession S)
    button_id (sc : screen S) :
  let pressed := (on_button_pressed session button_id sc).2 in
  let escaped := (action_dismiss_setup sc).2 in
  (_missing pressed = _missing sc ∧ inputs pressed = inputs sc
   ∧ trace sc `prefix_of` trace pressed)
  ∧ (_missing escaped = _missing sc ∧ inputs escaped = inputs sc
     ∧ trace sc `prefix_of` trace escaped)
  ∧ (button_id ≠ u "btn-save" → button_id ≠ u "btn-skip" →
       on_button_pressed session button_id sc = (inr (), sc)).
Proof.
  intros pressed escaped. subst pressed escaped.
  unfold on_button_pressed, action_dismiss_setup, dismiss, emit.
  split; [|split].
  - case_decide; [|case_decide].
    + rewrite save_credentials_from.
      destruct (_ensure_credential_key session (_session sc)).2;
        cbv zeta; cbn [snd _missing inputs trace]; split_and!; try done;
        by eexists.
    + cbn [snd _missing inputs trace]. split_and!; try done. by eexists.
    + cbn [ret snd]. split_and!; done.
  - cbn [snd _missing inputs trace]. split_and!; try done. by eexists.
  - intros H1 H2. by rewrite !decide_False by done.
Qed.

Lemma methods_keep_entries_and_inputs_witness :
  on_button_pressed (Session.session []) (u "btn-help")
    (init Session.fresh Example.entries Example.both)
  = (inr (), init Session.fresh Example.entries Example.both).
Proof.
  apply (methods_keep_entries_and_inputs (Session.session []) (u "btn-help"));
    vm_compute; discriminate.
Defined.

(** X12.  Whitespace around what is typed never matters: two
    submissions whose inputs agree once stripped have the same result,
    the same events and the same session. *)
Theorem padding_is_irrelevant {S} (session : CredentialSetupSession S)
    s creds values values' :
  (∀ i, (i < length creds)%nat → strip (values i) = strip (values' i)) →
  let run := _save_credentials session (init s creds values) in
  let run' := _save_credentials session (init s creds values') in
  run.1 = run'.1 ∧ trace run.2 = trace run'.2 ∧ _session run.2 = _session run'.2.
Proof.
  intros Heq run run'. subst run run'. rewrite !save_credentials_run.
  rewrite (entries_events_ext session values values' 0 creds) by done.
  by destruct (_ensure_credential_key session s).2.
Qed.

Lemma padding_is_irrelevant_witness :
  let run := _save_credentials (Session.session [u "FOO_KEY"])
               (init Session.fresh Example.entries Example.both) in
  let run' := _save_credentials (Session.session [u "FOO_KEY"])
                (init Session.fresh Example.entries MoreExamples.both_padded) in
  run.1 = run'.1 ∧ trace run.2 = trace run'.2 ∧ _session run.2 = _session run'.2.
Proof.
  apply padding_is_irrelevant.
  intros i Hi. destruct i as [|[|i]]; [reflexivity..|]. cbn in Hi. lia.
Defined.

(** *** What [compose] builds *)

Import Compose.

Lemma u_inj s s' : u s = u s' → s = s'.
Proof.
  unfold u. intros H.
  rewrite <-(string_of_list_ascii_of_string s), <-(string_of_list_ascii_of_string s').
  f_equal. revert H. generalize (list_ascii_of_string s) (list_ascii_of_string s').
  induction l as [|a l IH]; intros [|a' l']; try done.
  rewrite !fmap_cons. intros [= Ha Hl]. f_equal; [|by apply IH].
  by rewrite <-(ascii_N_embedding a), <-(ascii_N_embedding a'), Ha.
Qed.

Lemma str_of_nat_inj i j : str_of_nat i = str_of_nat j → i = j.
Proof.
  intros H%u_inj. apply DecimalNat.Unsigned.to_uint_inj.
  apply (f_equal NilEmpty.uint_of_string) in H.
  rewrite !NilEmpty.usu in H. by injection H.
Qed.

Lemma key_id_inj i j : key_id i = key_id j → i = j.
Proof. unfold key_id. intros H%app_inv_head. by apply str_of_nat_inj. Qed.

Lemma key_id_head j : ∃ rest, key_id j = 107 :: rest.
Proof. by eexists. Qed.

(** An entry is a container of labels without ids, with the input of
    the entry last. *)
Lemma entry_widget_children i cred :
  ∃ labels,
    entry_widget i cred
    = Vertical None (Some (u "cred-entry"))
        (labels ++ [Input (u "Paste API key...") true (Some (key_id i))])
    ∧ Forall (λ w, ∃ t, w = Label t None) labels.
Proof.
  unfold entry_widget. eexists. split.
  - by rewrite !app_assoc.
  - repeat apply Forall_app_2.
    + repeat constructor. by eexists.
    + cbv zeta. destruct (MissingCredential.tools cred) as [|??];
        [destruct (MissingCredential.node_types cred) as [|??]|];
        repeat constructor; by eexists.
    + destruct (truthy_opt _); repeat constructor. by eexists.
    + destruct (truthy_opt _); repeat constructor. by eexists.
Qed.

Lemma descendants_labels labels :
  Forall (λ w, ∃ t, w = Label t None) labels →
  flat_map descendants labels = labels.
Proof.
  induction 1 as [|w l [t ->] _ IH]; [done|]. cbn [flat_map descendants app].
  by rewrite IH.
Qed.

Lemma filter_labels (f : widget → bool) labels :
  (∀ t, f (Label t None) = false) →
  Forall (λ w, ∃ t, w = Label t None) labels →
  filter f labels = [].
Proof.
  intros Hf Hl. apply filter_bool_nil. intros w Hw.
  rewrite Forall_forall in Hl. by destruct (Hl w Hw) as [t ->].
Qed.

(** The widgets of an entry that a predicate keeps, when it keeps
    neither the entry's container nor its labels. *)
Lemma filter_entry (f : widget → bool) i cred :
  (∀ cs, f (Vertical None (Some (u "cred-entry")) cs) = false) →
  (∀ t, f (Label t None) = false) →
  filter f (descendants (entry_widget i cred))
  = filter f [Input (u "Paste API key...") true (Some (key_id i))].
Proof.
  intros Hv Hl. destruct (entry_widget_children i cred) as (labels & -> & Hlabels).
  cbn [descendants]. rewrite filter_bool_cons, Hv.
  rewrite flat_map_app, filter_app, (descendants_labels labels Hlabels).
  by rewrite (filter_labels f labels Hl Hlabels).
Qed.

Lemma filter_entries (f : widget → bool) i0 creds :
  (∀ cs, f (Vertical None (Some (u "cred-entry")) cs) = false) →
  (∀ t, f (Label t None) = false) →
  filter f (flat_map descendants (imap (λ k, entry_widget (i0 + k)) creds))
  = filter f ((λ i, Input (u "Paste API key...") true (Some (key_id i)))
                <$> seq i0 (length creds)).
Proof.
  intros Hv Hl. revert i0. induction creds as [|c rest IH]; intros i0; [done|].
  rewrite imap_cons. cbn [flat_map length seq]. rewrite fmap_cons.
  rewrite filter_app, Nat.add_0_r, filter_entry by done.
  change (?x :: ?l) with ([x] ++ l) at 2. rewrite filter_app. f_equal.
  rewrite <-IH. do 2 f_equal. apply imap_ext. intros k x _. cbn.
  f_equal. lia.
Qed.

Lemma filter_compose {S} (f : widget → bool) (sc : screen S) :
  (∀ cs, f (Vertical (Some (u "cred-container")) None cs) = false) →
  (∀ t, f (Label t (Some (u "cred-title"))) = false) →
  (∀ t, f (Label t (Some (u "cred-subtitle"))) = false) →
  (∀ cs, f (VerticalScroll (Some (u "cred-scroll")) cs) = false) →
  (∀ cs, f (Vertical None (Some (u "cred-buttons")) cs) = false) →
  (∀ t, f (Label t (Some (u "cred-footer"))) = false) →
  (∀ cs, f (Vertical None (Some (u "cred-entry")) cs) = false) →
  (∀ t, f (Label t None) = false) →
  filter f (flat_map descendants (compose sc))
  = filter f (((λ i, Input (u "Paste API key...") true (Some (key_id i)))
                 <$> seq 0 (length (_missing sc)))
              ++ [Button (u "Save & Continue") (u "primary") (Some (u "btn-save"));
                  Button (u "Skip") (u "default") (Some (u "btn-skip"))]).
Proof.
  intros H1 H2 H3 H4 H5 H6 H7 H8.
  unfold compose. cbv zeta. cbn [flat_map descendants app]. rewrite ?app_nil_r.
  rewrite !filter_bool_cons, H1, H2, H3, H4, !filter_app.
  replace (imap entry_widget (_missing sc))
    with (imap (λ k, entry_widget (0 + k)) (_missing sc))
    by (by apply imap_ext).
  rewrite (filter_entries f 0 (_missing sc) H7 H8).
  rewrite !filter_bool_cons, H5, H6. done.
Qed.

Lemma fixed_id_is_no_key (name : string) j :
  head (u name) ≠ Some 107 → Some (u name) ≠ Some (key_id j).
Proof.
  intros Hhd [= H]. destruct (key_id_head j) as [rest Hrest].
  by rewrite H, Hrest in Hhd.
Qed.

Lemma inputs_with_key j i0 n :
  filter (λ w, bool_decide (widget_id w = Some (key_id j)))
    ((λ i, Input (u "Paste API key...") true (Some (key_id i))) <$> seq i0 n)
  = if decide (i0 ≤ j < i0 + n)%nat
    then [Input (u "Paste API key...") true (Some (key_id j))] else [].
Proof.
  revert i0. induction n as [|n IH]; intros i0.
  { cbn. case_decide; [lia|done]. }
  cbn [seq]. rewrite fmap_cons, filter_cons, IH. cbn [widget_id].
  destruct (decide (i0 = j)) as [->|Hne].
  - rewrite decide_True by (by apply bool_decide_pack).
    rewrite decide_False by lia. rewrite decide_True by lia. done.
  - rewrite decide_False.
    2:{ intros H%bool_decide_unpack. apply (inj Some), key_id_inj in H. done. }
    repeat case_decide; (done || lia).
Qed.

(** X13.  What [compose] yields holds one password input per missing
    credential, with the ids [key-0], [key-1], ... in the order of the
    entries; these ids are pairwise distinct, no other widget that is
    yielded has one, and no widget is yielded with the id of an index
    past the last entry. *)
Theorem compose_inputs_match_entries {S} (sc : screen S) j :
  with_id (key_id j) (compose sc)
  = (if decide (j < length (_missing sc))%nat
     then [Input (u "Paste API key...") true (Some (key_id j))] else [])
  ∧ ids_of is_input (compose sc)
    = (λ i, Some (key_id i)) <$> seq 0 (length (_missing sc))
  ∧ ∀ i, key_id i = key_id j → i = j.
Proof.
  split_and!.
  - unfold with_id.
    rewrite (filter_compose (λ w, bool_decide (widget_id w = Some (key_id j)))).
    + rewrite filter_app, inputs_with_key. rewrite !filter_bool_cons.
      cbn [widget_id].
      rewrite !bool_decide_eq_false_2 by (by apply fixed_id_is_no_key).
      rewrite filter_nil, app_nil_r. repeat case_decide; (done || lia).
    + intros cs. cbn [widget_id]. by apply bool_decide_eq_false_2, fixed_id_is_no_key.
    + intros t. cbn [widget_id]. by apply bool_decide_eq_false_2, fixed_id_is_no_key.
    + intros t. cbn [widget_id]. by apply bool_decide_eq_false_2, fixed_id_is_no_key.
    + intros cs. cbn [widget_id]. by apply bool_decide_eq_false_2, fixed_id_is_no_key.
    + done.
    + intros t. cbn [widget_id]. by apply bool_decide_eq_false_2, fixed_id_is_no_key.
    + done.
    + done.
  - unfold ids_of. rewrite filter_compose by done.
    rewrite filter_app. rewrite !filter_bool_cons. cbn [is_input].
    rewrite filter_nil, app_nil_r.
    generalize (seq 0 (length (_missing sc))). intros l.
    induction l as [|i l IH]; [done|].
    rewrite !fmap_cons, filter_bool_cons. cbn [is_input]. rewrite fmap_cons.
    cbn [widget_id]. by rewrite IH.
  - intros i. apply key_id_inj.
Qed.

(** X14.  The buttons the screen is built with are Save and Skip, and
    [on_button_pressed] acts on a press of either: none of the buttons
    shown is without effect. *)
Theorem composed_buttons_are_handled {S} (session : CredentialSetupSession S)
    (sc : screen S) :
  ids_of is_button (compose sc) = [Some (u "btn-save"); Some (u "btn-skip")]
  ∧ ∀ b, Some b ∈ ids_of is_button (compose sc) →
         trace (on_button_pressed session b sc).2 ≠ trace sc.
Proof.
  assert (ids_of is_button (compose sc)
          = [Some (u "btn-save"); Some (u "btn-skip")]) as Hids.
  { unfold ids_of. rewrite filter_compose by done.
    rewrite filter_app. rewrite (filter_bool_nil is_button (_ <$> _)).
    - by rewrite !filter_bool_cons.
    - by intros w (i & -> & _)%list_elem_of_fmap. }
  split; [done|]. rewrite Hids. intros b Hb.
  assert (∀ l : list event, l ≠ [] → trace sc ++ l ≠ trace sc) as Hgrow.
  { intros l Hl H. rewrite <-(app_nil_r (trace sc)) in H at 2.
    by apply app_inv_head in H. }
  apply elem_of_cons in Hb as [[= ->]|Hb].
  - unfold on_button_pressed. rewrite decide_True by done.
    rewrite save_credentials_from.
    destruct (_ensure_credential_key session (_session sc)).2;
      cbv zeta; cbn [snd trace]; by apply Hgrow.
  - apply list_elem_of_singleton in Hb as [= ->].
    unfold on_button_pressed. rewrite decide_False by (by vm_compute).
    rewrite decide_True by done. unfold dismiss, emit. cbn [snd trace].
    by apply Hgrow.
Qed.

Example compose_example :
  ids_of is_input (compose (init Session.fresh Example.entries Example.both))
  = [Some (u "key-0"); Some (u "key-1")]
  ∧ key_id 10 = u "key-10"
  ∧ with_id (u "cred-subtitle") (compose (init Session.fresh Example.entries Example.both))
    = [Label (u "[dim]2 credentials needed to run this agent[/dim]")
         (Some (u "cred-subtitle"))]
  ∧ with_id (u "cred-subtitle") (compose (init Session.fresh [Example.foo_entry] Example.both))
    = [Label (u "[dim]1 credential needed to run this agent[/dim]")
         (Some (u "cred-subtitle"))]
  ∧ descendants (entry_widget 0 Example.foo_entry)
    = [entry_widget 0 Example.foo_entry;
       Label (u "[bold]FOO_KEY[/bold]") None;
       Label (u "[dim]Required by: search[/dim]") None;
       Input (u "Paste API key...") true (Some (u "key-0"))].
Proof. vm_compute. split_and!; reflexivity. Qed.

Lemma compose_inputs_match_entries_witness :
  with_id (u "key-1") (compose (init Session.fresh Example.entries Example.both))
  = [Input (u "Paste API key...") true (Some (u "key-1"))]
  ∧ with_id (u "key-2") (compose (init Session.fresh Example.entries Example.both))
    = [].
Proof.
  split.
  - exact (proj1 (compose_inputs_match_entries
                    (init Session.fresh Example.entries Example.both) 1)).
  - exact (proj1 (compose_inputs_match_entries
                    (init Session.fresh Example.entries Example.both) 2)).
Defined.

Lemma composed_buttons_are_handled_witness :
  trace (on_button_pressed (Session.session []) (u "btn-skip")
           (init Session.fresh Example.entries Example.both)).2
  ≠ trace (init Session.fresh Example.entries Example.both).
Proof.
  apply (proj2 (composed_buttons_are_handled (Session.session [])
                  (init Session.fresh Example.entries Example.both))).
  apply (bool_decide_unpack _). vm_compute. exact I.
Defined.

End ScreenFacts.
